(** * prompt_toolkit rendering core: screen buffer and input processors

    A shallow embedding of [prompt_toolkit/layout/screen.py] and
    [prompt_toolkit/layout/processors.py], followed by the properties the
    specification states about them.

    Conventions of the embedding:
    - a Python [unicode] string is a list of code points ([ustring]); a
      character is one code point ([uchar]);
    - Python integers that can be negative or that come from the outside
      (coordinates, widths, heights) are [Z]; counters that only ever count
      up from zero ([index], [line_number], list offsets) are [nat];
    - a [dict] is a [gmap]; a list updated by index is a [list] with stdpp's
      lookup and insert, and an out-of-range access, which raises
      [IndexError] in Python, is [None];
    - a failed [assert] or a raised exception is [None] in the option monad;
    - a Pygments token type is the tuple of its path components. *)

From Stdlib Require Import ZArith NArith Ascii String Lia.
From stdpp Require Import base option list gmap strings.

Local Open Scope Z_scope.
Local Open Scope nat_scope.

(* ===================================================================== *)
(** * Part I: the embedding                                               *)
(* ===================================================================== *)

(** ** Unicode text

    A character of a Python string is itself a string of length one: where
    the source passes a character on as a string, the embedding passes the
    one-element list. *)

Abbreviation uchar := N.
Abbreviation ustring := (list uchar).

Definition ord (a : ascii) : uchar := N_of_ascii a.

(** [u "abc"] is the Python literal ['abc']. *)
Definition u (s : string) : ustring := ord <$> list_ascii_of_string s.

Definition newline : uchar := 10%N.

(** ** Pygments token types

    [Token.SearchMatch.Current] is the tuple [('SearchMatch', 'Current')];
    the root [Token] is the empty tuple. *)

Abbreviation TokenType := (list string).

Definition Token : TokenType := [].
Definition Token_Error : TokenType := ["Error"%string].
Definition Token_SearchMatch : TokenType := ["SearchMatch"%string].
Definition Token_SearchMatch_Current : TokenType :=
  ["SearchMatch"%string; "Current"%string].
Definition Token_LineNumber : TokenType := ["LineNumber"%string].

(** A list of [(token, text)] tuples. *)
Abbreviation tokenlist := (list (TokenType * ustring)).

(** ** Python helpers *)

(** [assert b]. *)
Definition assert (b : bool) : option unit := if b then Some () else None.

(** [for a in l: s = body(s, a)], where the body may raise. *)
Fixpoint for_each {S A : Type} (body : S -> A -> option S) (l : list A) (s : S)
  : option S :=
  match l with
  | [] => Some s
  | a :: l' => s' ← body s a; for_each body l' s'
  end.

(** [sub in s] on strings: [sub] occurs in [s] as a contiguous substring. *)
Definition str_in (sub s : ustring) : bool :=
  existsb (fun i => bool_decide (take (length sub) (drop i s) = sub))
          (seq 0 (S (length s))).

(** [tokens[x] = (tok, tokens[x][1])]; [IndexError] when [x] is out of range. *)
Definition retag (tok : TokenType) (tokens : tokenlist) (x : nat) : option tokenlist :=
  '(_, text) ← tokens !! x;
  Some (<[x := (tok, text)]> tokens).

(** ** screen.py: [Char] *)

Module Char.

Record t : Type := mk { char : ustring; token : TokenType; width : Z }.

(** The class attribute [display_mappings]. *)
Definition display_mappings : gmap ustring ustring :=
  list_to_map
    [ ([0x00%N], u "^@"); ([0x01%N], u "^A"); ([0x02%N], u "^B"); ([0x03%N], u "^C");
      ([0x04%N], u "^D"); ([0x05%N], u "^E"); ([0x06%N], u "^F"); ([0x07%N], u "^G");
      ([0x08%N], u "^H"); ([0x09%N], u "^I"); ([0x0a%N], u "^J"); ([0x0b%N], u "^K");
      ([0x0c%N], u "^L"); ([0x0d%N], u "^M"); ([0x0e%N], u "^N"); ([0x0f%N], u "^O");
      ([0x10%N], u "^P"); ([0x11%N], u "^Q"); ([0x12%N], u "^R"); ([0x13%N], u "^S");
      ([0x14%N], u "^T"); ([0x15%N], u "^U"); ([0x16%N], u "^V"); ([0x17%N], u "^W");
      ([0x18%N], u "^X"); ([0x19%N], u "^Y"); ([0x1a%N], u "^Z"); ([0x1b%N], u "^[");
      ([0x1c%N], u "^\"); ([0x1d%N], u "^]"); ([0x1f%N], u "^_"); ([0x7f%N], u "^?") ].

(** [display_mappings.get(char, char)]. *)
Definition display (char : ustring) : ustring :=
  default char (display_mappings !! char).

Section WithWidth.

(** [prompt_toolkit.utils.get_cwidth], the display width of a string, lives
    outside the files embedded here: it is a parameter of the embedding. *)
Variable get_cwidth : ustring -> Z.

(** [Char.__init__(self, char=' ', token=Token)]. *)
Definition __init__ (char : ustring) (token : TokenType) : t :=
  let char := display char in
  {| char := char; token := token; width := get_cwidth char |}.

End WithWidth.

(** [Char.__eq__]: the width is not compared. *)
Definition __eq__ (self other : t) : bool :=
  bool_decide (char self = char other) && bool_decide (token self = token other).

End Char.

(** ** screen.py: [CharCache]

    [_CHAR_CACHE[char, token]] builds [Char(char, token)] on a miss, stores
    it and returns it. *)

Abbreviation CharCache := (gmap (ustring * TokenType) Char.t).

Definition CharCache_getitem (get_cwidth : ustring -> Z)
    (self : CharCache) (key : ustring * TokenType) : Char.t * CharCache :=
  match self !! key with
  | Some c => (c, self)
  | None =>
      let c := Char.__init__ get_cwidth key.1 key.2 in
      (c, <[key := c]> self)
  end.

(** Every entry of the cache is the [Char] built from its key: true of the
    empty cache the module starts with and kept by [CharCache_getitem]. *)
Definition CharCache_consistent (get_cwidth : ustring -> Z) (self : CharCache) : Prop :=
  forall key c, self !! key = Some c -> c = Char.__init__ get_cwidth key.1 key.2.

(** In [write_data] the cache is only ever read through [_CHAR_CACHE[char,
    token]]; on a consistent cache that lookup is the value below (lemma
    [CharCache_getitem_value]), which is how the embedding writes it. *)
Definition _CHAR_CACHE (get_cwidth : ustring -> Z) (char : ustring) (token : TokenType)
  : Char.t :=
  Char.__init__ get_cwidth char token.

(** ** screen.py: [Point], [Screen] *)

(** [Point = namedtuple('Point', 'y x')]. *)
Record Point : Type := mkPoint { point_y : Z; point_x : Z }.

(** The nested [defaultdict]: row index to (column index to [Char]). *)
Abbreviation grid := (gmap Z (gmap Z Char.t)).

(** [buffer[y][x] = c]: the row is created when it is missing. *)
Definition grid_set (buffer : grid) (y x : Z) (c : Char.t) : grid :=
  <[y := <[x := c]> (default ∅ (buffer !! y))]> buffer.

(** The value of [buffer[y][x]]: a missing row or column reads as the
    default character. *)
Definition grid_get (default_char : Char.t) (buffer : grid) (y x : Z) : Char.t :=
  default default_char (buffer !! y ≫= fun row => row !! x).

(** A margin callable: line number, or [None] for a continuation line, to a
    list of token tuples. *)
Abbreviation margin_fn := (option nat -> tokenlist).

Module Screen.

Record t : Type := mk {
  _buffer : grid;
  default_char : Char.t;
  width : Z;
  cursor_position : Point;
  menu_position : option Point;
  current_height : Z;
  screen_line_to_input_line : gmap Z nat
}.

(** The local variables of [write_data] that its loops update. *)
Record locals : Type := mkLocals {
  x : Z;
  y : Z;
  index : nat;
  line_number : nat;
  requires_line_feed : bool;
  indexes_to_pos : gmap nat (Z * Z);
  buffer : grid;
  s2i : gmap Z nat
}.

Section WithWidth.

Variable get_cwidth : ustring -> Z.

(** [Screen.__init__(self, width, default_char=None)]. *)
Definition __init__ (width : Z) (default_char : option Char.t) : t :=
  let default_char :=
    match default_char with
    | None => Char.__init__ get_cwidth (u " ") Token
    | Some c => c
    end in
  {| _buffer := ∅;
     default_char := default_char;
     width := width;
     cursor_position := {| point_y := 0; point_x := 0 |};
     menu_position := None;
     current_height := 1;
     screen_line_to_input_line := ∅ |}.

(** The body of the inner loop of [do_line_feed]: one margin character. *)
Definition margin_char (y : Z) (token : TokenType) (acc : grid * Z) (char : uchar)
  : grid * Z :=
  let '(buffer, x) := acc in
  let char_obj := _CHAR_CACHE get_cwidth [char] token in
  let char_width := Char.width char_obj in
  let buffer := grid_set buffer y x char_obj in
  let buffer :=
    if (1 <? char_width)%Z
    then grid_set buffer y (x + 1) (Char.__init__ get_cwidth [0%N] Token)
    else buffer in
  (buffer, (x + char_width)%Z).

(** The closure [do_line_feed(x, number)]; [y], [buffer] and
    [screen_line_to_input_line] are the variables it closes over. It returns
    the new [x]. *)
Definition do_line_feed (margin : option margin_fn) (y : Z)
    (buffer : grid) (s2i : gmap Z nat) (x : Z) (number : option nat)
  : grid * gmap Z nat * Z :=
  let s2i :=
    match number with
    | Some n => <[y := n]> s2i
    | None => s2i
    end in
  match margin with
  | None => (buffer, s2i, x)
  | Some margin =>
      let '(buffer, x) :=
        fold_left
          (fun acc '(token, text) => fold_left (margin_char y token) text acc)
          (margin number) (buffer, x) in
      (buffer, s2i, x)
  end.

(** The body of the inner loop of [write_data]: one character of the data. *)
Definition write_char (max_x : Z) (margin : option margin_fn)
    (token : TokenType) (st : locals) (char : uchar) : locals :=
  let '(mkLocals x y index line_number requires_line_feed
                 indexes_to_pos buffer s2i) := st in
  (* Line feed. *)
  let '(buffer, s2i, x, requires_line_feed) :=
    if requires_line_feed
    then let '(buffer, s2i, x) :=
           do_line_feed margin y buffer s2i x (Some line_number) in
         (buffer, s2i, x, false)
    else (buffer, s2i, x, requires_line_feed) in
  let char_obj := _CHAR_CACHE get_cwidth [char] token in
  let char_width := Char.width char_obj in
  (* No more place left at this line. *)
  let '(buffer, s2i, x, y) :=
    if (max_x <? x + char_width)%Z && negb (bool_decide (char = newline))
    then let y := (y + 1)%Z in
         let x := 0%Z in
         let '(buffer, s2i, x) := do_line_feed margin y buffer s2i x None in
         (buffer, s2i, x, y)
    else (buffer, s2i, x, y) in
  (* Keep mapping of index to position. *)
  let indexes_to_pos := <[index := (x, y)]> indexes_to_pos in
  if bool_decide (char = newline)
  then
    (* Insertion of newline. *)
    mkLocals 0%Z (y + 1)%Z (index + 1) (line_number + 1) true
             indexes_to_pos buffer s2i
  else
    (* Insertion of a 'visible' character. *)
    let buffer := grid_set buffer y x char_obj in
    let buffer :=
      if (1 <? char_width)%Z
      then grid_set buffer y (x + 1) (Char.__init__ get_cwidth [0%N] Token)
      else buffer in
    mkLocals (x + char_width)%Z y (index + 1) line_number requires_line_feed
             indexes_to_pos buffer s2i.

(** [Screen.write_data(self, data, width, margin=None)]: the screen after
    the call and the returned [indexes_to_pos]. *)
Definition write_data (self : t) (data : tokenlist) (width : Z)
    (margin : option margin_fn) : t * gmap nat (Z * Z) :=
  let x := 0%Z in
  let max_x := (x + width)%Z in
  let st0 := mkLocals x 0%Z 0 0 true ∅ (_buffer self)
                      (screen_line_to_input_line self) in
  let st :=
    fold_left
      (fun st '(token, text) => fold_left (write_char max_x margin token) text st)
      data st0 in
  ({| _buffer := buffer st;
      default_char := default_char self;
      width := Screen.width self;
      cursor_position := cursor_position self;
      menu_position := menu_position self;
      current_height := Z.max (current_height self) (y st + 1);
      screen_line_to_input_line := s2i st |},
   indexes_to_pos st).

(** [Screen.replace_all_tokens(self, token)]. *)
Definition replace_all_tokens (self : t) (token : TokenType) : t :=
  {| _buffer :=
       (fun row => (fun c : Char.t =>
          _CHAR_CACHE get_cwidth (Char.char c) token) <$> (row : gmap Z Char.t))
       <$> _buffer self;
     default_char := default_char self;
     width := Screen.width self;
     cursor_position := cursor_position self;
     menu_position := menu_position self;
     current_height := current_height self;
     screen_line_to_input_line := screen_line_to_input_line self |}.

End WithWidth.

End Screen.

(** ** screen.py: [WritePosition] *)

Module WritePosition.

Record t : Type := mk {
  xpos : Z;
  ypos : Z;
  width : Z;
  height : Z;
  extended_height : Z
}.

(** [extended_height or height], on an optional integer: [None] and [0] are
    the falsy values. *)
Definition or_height (extended_height : option Z) (height : Z) : Z :=
  match extended_height with
  | None => height
  | Some e => if (e =? 0)%Z then height else e
  end.

(** [WritePosition.__init__(self, xpos, ypos, width, height,
    extended_height=None)]; [None] is a failed assertion. *)
Definition __init__ (xpos ypos width height : Z) (extended_height : option Z)
  : option t :=
  _ ← assert (0 <=? height)%Z;
  _ ← assert (match extended_height with
              | None => true
              | Some e => (0 <=? e)%Z
              end);
  _ ← assert (0 <=? width)%Z;
  _ ← assert (0 <=? xpos)%Z;
  _ ← assert (0 <=? ypos)%Z;
  Some {| xpos := xpos;
          ypos := ypos;
          width := width;
          height := height;
          extended_height := or_height extended_height height |}.

End WritePosition.

(** ** processors.py *)

(** What the processors read of the editor state. *)
Record Document : Type := mkDocument {
  text : ustring;
  document_cursor_position : nat
}.

Record ISearchState : Type := mkISearchState { isearch_text : ustring }.

Record Buffer : Type := mkBuffer {
  isearch_state : option ISearchState;
  document : Document
}.

(** The property [Buffer.cursor_position]. *)
Definition cursor_position (buffer : Buffer) : nat :=
  document_cursor_position (document buffer).

(** The second component of what [run] returns, [lambda i: ...]. *)
Abbreviation index_remap := (nat -> nat).

Section Processors.

(** The command line interface object; the processors embedded here only
    hand it on. *)
Variable CommandLineInterface : Type.

(** [Document.find_all(sub)], the start offsets of the matches of [sub] in
    the document: defined in [prompt_toolkit/document.py], outside the
    files embedded here, so a parameter. *)
Variable find_all : Document -> ustring -> list nat.

(** The abstract base class: the one abstract method. *)
Record Processor : Type := mkProcessor {
  run : CommandLineInterface -> Buffer -> tokenlist -> option (tokenlist * index_remap)
}.

(** [HighlightSearchProcessor.run]. *)
Definition HighlightSearchProcessor_run (cli : CommandLineInterface)
    (buffer : Buffer) (tokens : tokenlist) : option (tokenlist * index_remap) :=
  match isearch_state buffer with
  | Some isearch_state =>
      tokens ←
        for_each
          (fun tokens index =>
             let token :=
               if bool_decide (index = cursor_position buffer)
               then Token_SearchMatch_Current
               else Token_SearchMatch in
             for_each (retag token)
                      (seq index (length (isearch_text isearch_state))) tokens)
          (find_all (document buffer) (isearch_text isearch_state))
          tokens;
      Some (tokens, fun i => i)
  | None => Some (tokens, fun i => i)
  end.

Definition HighlightSearchProcessor : Processor :=
  {| run := HighlightSearchProcessor_run |}.

(** [PasswordProcessor(char='*').run]. *)
Definition PasswordProcessor_run (char : ustring) (cli : CommandLineInterface)
    (buffer : Buffer) (tokens : tokenlist) : option (tokenlist * index_remap) :=
  Some ((fun '(token, text) => (token, concat (replicate (length text) char)))
          <$> tokens,
        fun i => i).

Definition PasswordProcessor (char : ustring) : Processor :=
  {| run := PasswordProcessor_run char |}.

(** The class attribute [BracketsMismatchProcessor.error_token]. *)
Definition error_token : TokenType := Token_Error.

(** The body of the scanning loop of [BracketsMismatchProcessor.run], for
    the element of [enumerate(tokens)] at [index]. *)
Definition brackets_step (st : list nat * tokenlist) (index : nat)
  : option (list nat * tokenlist) :=
  let '(stack, tokens) := st in
  '(token, text) ← tokens !! index;
  top ← match last stack with
        | Some i => snd <$> tokens !! i
        | None => Some (u "")
        end;
  if str_in text (u "({[]})") then
    if str_in text (u "({[") then
      (* Put open bracket on the stack *)
      Some (stack ++ [index], tokens)
    else if (bool_decide (text = u ")") && bool_decide (top = u "("))
            || (bool_decide (text = u "}") && bool_decide (top = u "{"))
            || (bool_decide (text = u "]") && bool_decide (top = u "["))
    then
      (* Match found *)
      Some (removelast stack, tokens)
    else
      (* No match for closing bracket. *)
      Some (stack, <[index := (error_token, text)]> tokens)
  else Some (stack, tokens).

(** [BracketsMismatchProcessor.run]. *)
Definition BracketsMismatchProcessor_run (cli : CommandLineInterface)
    (buffer : Buffer) (tokens : tokenlist) : option (tokenlist * index_remap) :=
  '(stack, tokens) ← for_each brackets_step (seq 0 (length tokens)) ([], tokens);
  (* Highlight unclosed tags that are still on the stack. *)
  tokens ← for_each (retag Token_Error) stack tokens;
  Some (tokens, fun i => i).

Definition BracketsMismatchProcessor : Processor :=
  {| run := BracketsMismatchProcessor_run |}.

(** Modelled from the spec: [token_list_len] of
    [prompt_toolkit/layout/utils.py] is not among the embedded files; the
    specification has Before-insertion shift "by the inserted stream's total
    character count", which is the sum of the lengths of the texts. *)
Definition token_list_len (tokenlist : tokenlist) : nat :=
  sum_list ((fun '(_, text) => length text) <$> tokenlist).

(** [BeforeInput(get_tokens).run]. *)
Definition BeforeInput_run (get_tokens : CommandLineInterface -> Buffer -> tokenlist)
    (cli : CommandLineInterface) (buffer : Buffer) (tokens : tokenlist)
  : option (tokenlist * index_remap) :=
  let tokens_before := get_tokens cli buffer in
  let shift_position := token_list_len tokens_before in
  Some (tokens_before ++ tokens, fun i => i + shift_position).

Definition BeforeInput (get_tokens : CommandLineInterface -> Buffer -> tokenlist)
  : Processor :=
  {| run := BeforeInput_run get_tokens |}.

(** [BeforeInput.static(text, token=Token)]. *)
Definition BeforeInput_static (text : ustring) (token : TokenType) : Processor :=
  BeforeInput (fun _ _ => [(token, text)]).

(** [AfterInput(get_tokens).run]. *)
Definition AfterInput_run (get_tokens : CommandLineInterface -> Buffer -> tokenlist)
    (cli : CommandLineInterface) (buffer : Buffer) (tokens : tokenlist)
  : option (tokenlist * index_remap) :=
  Some (tokens ++ get_tokens cli buffer, fun i => i).

Definition AfterInput (get_tokens : CommandLineInterface -> Buffer -> tokenlist)
  : Processor :=
  {| run := AfterInput_run get_tokens |}.

(** [AfterInput.static(text, token=Token)]. *)
Definition AfterInput_static (text : ustring) (token : TokenType) : Processor :=
  AfterInput (fun _ _ => [(token, text)]).

(** [ConditionalProcessor(processor, filter).run]. *)
Definition ConditionalProcessor_run (processor : Processor)
    (filter : CommandLineInterface -> bool)
    (cli : CommandLineInterface) (buffer : Buffer) (tokens : tokenlist)
  : option (tokenlist * index_remap) :=
  if filter cli
  then run processor cli buffer tokens
  else Some (tokens, fun i => i).

Definition ConditionalProcessor (processor : Processor)
    (filter : CommandLineInterface -> bool) : Processor :=
  {| run := ConditionalProcessor_run processor filter |}.

(** Modelled from the spec: running one processor after another. The caller
    that chains the processors is not among the embedded files; the
    specification has each stage receive the previous stage's output stream,
    and the overall remap of offset [i] be [remapN(...(remap1(i)))]. *)
Definition run_pipeline (processors : list Processor)
    (cli : CommandLineInterface) (buffer : Buffer) (tokens : tokenlist)
  : option (tokenlist * index_remap) :=
  for_each
    (fun '(tokens, remap) processor =>
       '(tokens, f) ← run processor cli buffer tokens;
       Some (tokens, fun i => f (remap i)))
    processors (tokens, fun i => i).

End Processors.

(** ** Vocabulary of the statements *)

(** The stream flattened to one [(token, character)] pair per offset, in the
    order the nested loops [for token, text in data: for char in text] visit
    them. *)
Definition explode (data : tokenlist) : list (TokenType * uchar) :=
  '(token, text) ← data; (fun char => (token, char)) <$> text.

(** A stream with one character per fragment, and the stream that spells a
    string that way under one token. *)
Definition one_char_fragments (tokens : tokenlist) : Prop :=
  Forall (fun p : TokenType * ustring => length p.2 = 1) tokens.

Definition spell (token : TokenType) (s : ustring) : tokenlist :=
  (fun c => (token, [c])) <$> s.

(** The token at an offset of a stream. *)
Definition token_at (tokens : tokenlist) (i : nat) : option TokenType :=
  fst <$> tokens !! i.

(** Modelled from the spec: a sample display-width function. [get_cwidth] is
    not among the embedded files; the specification gives a display width of
    0, 1 or 2 columns from the East-Asian-width rules, measures a substituted
    glyph "as a whole string", and has U+4E2D of width 2, ['a'] of width 1
    and the glyph [^G] of width 2. Here: combining marks are 0 wide, the CJK
    and full-width blocks 2, everything else 1. *)
Definition sample_char_width (c : uchar) : Z :=
  if ((0x0300 <=? c) && (c <=? 0x036f))%N then 0%Z
  else if ((0x1100 <=? c) && (c <=? 0x115f))%N
          || ((0x2e80 <=? c) && (c <=? 0x9fff))%N
          || ((0xac00 <=? c) && (c <=? 0xd7a3))%N
          || ((0xf900 <=? c) && (c <=? 0xfaff))%N
          || ((0xff00 <=? c) && (c <=? 0xff60))%N then 2%Z
  else 1%Z.

(** Modelled from the spec: a string is as wide as its characters
    together. *)
Definition sample_cwidth (s : ustring) : Z :=
  foldr (fun c acc => (sample_char_width c + acc)%Z) 0%Z s.

(** Modelled from the spec: a sample [Document.find_all], which is not among
    the embedded files; the specification speaks of "every occurrence of the
    active search text", which is every offset at which the text starts. *)
Definition sample_find_all (document : Document) (sub : ustring) : list nat :=
  filter (fun i => take (length sub) (drop i (text document)) = sub)
         (seq 0 (S (length (text document) - length sub))).

(** *** The bracket scan as the specification words it

    A bracket-character set is a list of (opener, closer) pairs. The scan
    keeps a stack of offsets of unmatched openers, top first, and collects
    the offsets to retag. *)

Abbreviation bracket_set := (list (uchar * uchar)).

(** The default set of the specification, [[](){}<>]. *)
Definition spec_default_brackets : bracket_set :=
  [ (ord "[", ord "]"); (ord "(", ord ")"); (ord "{", ord "}");
    (ord "<", ord ">") ].

(** The set [BracketsMismatchProcessor.run] has in its literals. *)
Definition run_brackets : bracket_set :=
  [ (ord "(", ord ")"); (ord "{", ord "}"); (ord "[", ord "]") ].

Definition is_opener (bs : bracket_set) (c : uchar) : bool :=
  bool_decide (c ∈ bs.*1).

Definition is_closer (bs : bracket_set) (c : uchar) : bool :=
  bool_decide (c ∈ bs.*2).

Definition is_matching (bs : bracket_set) (o : option uchar) (c : uchar) : bool :=
  match o with
  | Some o => bool_decide ((o, c) ∈ bs)
  | None => false
  end.

(** [spec_scan bs whole rest i stack errors]: [rest] is what is left of
    [whole] from offset [i] on; the result is the stack of openers left
    unmatched and the closers found without a match. *)
Fixpoint spec_scan (bs : bracket_set) (whole rest : ustring) (i : nat)
    (stack errors : list nat) : list nat * list nat :=
  match rest with
  | [] => (stack, errors)
  | c :: rest' =>
      if is_opener bs c then spec_scan bs whole rest' (S i) (i :: stack) errors
      else if is_closer bs c then
        match stack with
        | top :: stack' =>
            if is_matching bs (whole !! top) c
            then spec_scan bs whole rest' (S i) stack' errors
            else spec_scan bs whole rest' (S i) stack (i :: errors)
        | [] => spec_scan bs whole rest' (S i) [] (i :: errors)
        end
      else spec_scan bs whole rest' (S i) stack errors
  end.

(** Retag the offsets in [errors] as errors, keep everything else. *)
Definition mark_errors (errors : list nat) (tokens : tokenlist) : tokenlist :=
  imap (fun i '(token, text) =>
          if bool_decide (i ∈ errors) then (Token_Error, text) else (token, text))
       tokens.

Definition spec_brackets_mismatch (bs : bracket_set) (tokens : tokenlist)
  : tokenlist :=
  let chars := (explode tokens).*2 in
  let '(stack, errors) := spec_scan bs chars chars 0 [] [] in
  mark_errors (errors ++ stack) tokens.

(** Balanced strings over a bracket set: the empty string, a character
    outside the set followed by a balanced string, and a balanced string
    between a matching pair followed by a balanced string. *)
Inductive balanced (bs : bracket_set) : ustring -> Prop :=
  | balanced_nil : balanced bs []
  | balanced_plain c w :
      c ∉ bs.*1 -> c ∉ bs.*2 -> balanced bs w -> balanced bs (c :: w)
  | balanced_pair o c w1 w2 :
      (o, c) ∈ bs -> balanced bs w1 -> balanced bs w2 ->
      balanced bs (o :: w1 ++ c :: w2).

(** *** Search matches *)

(** The start of the last match in [occurrences] (in the order [find_all]
    gave them) that covers offset [x], for a search text [len] long. *)
Definition last_covering (occurrences : list nat) (len x : nat) : option nat :=
  last (filter (fun index => index <= x < index + len) occurrences).

(** [tokens] with the tag of every offset in [[index, index + len)]
    replaced by [token]. *)
Definition retag_range (token : TokenType) (index len : nat) (tokens : tokenlist)
  : tokenlist :=
  imap (fun x '(token', text) =>
          if bool_decide (index <= x < index + len) then (token, text)
          else (token', text))
       tokens.


(** The tag [HighlightSearchProcessor.run] picks for the match at [index]. *)
Definition search_token (cursor index : nat) : TokenType :=
  if bool_decide (index = cursor) then Token_SearchMatch_Current
  else Token_SearchMatch.


(** *** The local state of [write_data] *)

(** The local variables of [write_data] as its loop is entered. *)
Definition locals0 (self : Screen.t) : Screen.locals :=
  Screen.mkLocals 0%Z 0%Z 0 0 true ∅ (Screen._buffer self)
                  (Screen.screen_line_to_input_line self).

(** [write_data]'s two nested loops as one loop over the flattened stream. *)
Definition write_chars (get_cwidth : ustring -> Z) (max_x : Z) (margin : option margin_fn)
    (chars : list (TokenType * uchar)) (st : Screen.locals) : Screen.locals :=
  fold_left (fun st '(token, char) => Screen.write_char get_cwidth max_x margin token st char)
            chars st.

(** A position is behind the write head of [st]: on an earlier row, or on
    the current row left of [x] once the row has been started. *)
Definition behind (st : Screen.locals) (yy xx : Z) : Prop :=
  (yy < Screen.y st)%Z
  \/ (yy = Screen.y st /\ (xx < Screen.x st)%Z /\ Screen.requires_line_feed st = false).

(** What holds between the characters consumed so far and the local state
    of [write_data]. *)
Record index_map_inv (get_cwidth : ustring -> Z) (default_char : Char.t)
    (chars : list (TokenType * uchar)) (st : Screen.locals) : Prop := {
  inv_index : Screen.index st = length chars;
  inv_keys : forall i, is_Some (Screen.indexes_to_pos st !! i) <-> i < length chars;
  inv_cell :
      (forall token c, (token, c) ∈ chars -> c <> newline ->
         (1 <= Char.width (_CHAR_CACHE get_cwidth [c] token))%Z) ->
      forall i token c xi yi,
      chars !! i = Some (token, c) -> c <> newline ->
      Screen.indexes_to_pos st !! i = Some (xi, yi) ->
      grid_get default_char (Screen.buffer st) yi xi = _CHAR_CACHE get_cwidth [c] token
      /\ behind st yi xi;
  inv_last : forall i token c xi yi,
      chars !! i = Some (token, c) -> S i = length chars ->
      Screen.indexes_to_pos st !! i = Some (xi, yi) ->
      if bool_decide (c = newline)
      then Screen.y st = (yi + 1)%Z
      else Screen.x st = (xi + Char.width (_CHAR_CACHE get_cwidth [c] token))%Z
           /\ Screen.y st = yi /\ Screen.requires_line_feed st = false;
  inv_next : forall i token c token' c' xi yi xj yj,
      chars !! i = Some (token, c) -> chars !! S i = Some (token', c') ->
      Screen.indexes_to_pos st !! i = Some (xi, yi) ->
      Screen.indexes_to_pos st !! S i = Some (xj, yj) ->
      (c = newline -> (yi < yj)%Z)
      /\ (c <> newline -> c' = newline ->
          xj = (xi + Char.width (_CHAR_CACHE get_cwidth [c] token))%Z /\ yj = yi)
}.


(** The stream has only characters that are not newlines and are one
    column wide. *)
Definition plain_chars (get_cwidth : ustring -> Z) (chars : list (TokenType * uchar)) : Prop :=
  forall token c, (token, c) ∈ chars ->
    c <> newline /\ Char.width (_CHAR_CACHE get_cwidth [c] token) = 1%Z.

(** Column [xx] of row [yy] is one of the first [k] cells of a grid that is
    [W] columns wide, counting row by row. *)
Definition in_block (W : Z) (k : nat) (yy xx : Z) : Prop :=
  (0 <= xx < W)%Z /\ (0 <= yy)%Z /\ (yy * W + xx < Z.of_nat k)%Z.

(** What holds, for a plain stream without margin, between the characters
    consumed so far and the local state of [write_data]; [buffer0] is the
    grid before the call. *)
Record wrap_inv (get_cwidth : ustring -> Z) (default_char : Char.t) (W : Z)
    (buffer0 : grid) (chars : list (TokenType * uchar)) (st : Screen.locals) : Prop := {
  wrap_index : Screen.index st = length chars;
  wrap_head : (0 <= Screen.x st <= W)%Z /\ (0 <= Screen.y st)%Z
              /\ Z.of_nat (length chars) = (Screen.y st * W + Screen.x st)%Z
              /\ (0 < length chars -> (1 <= Screen.x st)%Z);
  wrap_pos : forall i,
      Screen.indexes_to_pos st !! i =
      if decide (i < length chars)
      then Some ((Z.of_nat i mod W)%Z, (Z.of_nat i / W)%Z) else None;
  wrap_cell : forall yy xx,
      in_block W (length chars) yy xx ->
      exists token c,
        chars !! Z.to_nat (yy * W + xx) = Some (token, c)
        /\ grid_get default_char (Screen.buffer st) yy xx = _CHAR_CACHE get_cwidth [c] token;
  wrap_frame : forall yy xx,
      ~ in_block W (length chars) yy xx ->
      grid_get default_char (Screen.buffer st) yy xx = grid_get default_char buffer0 yy xx
}.

(** *** Caret notation *)

(** The caret-notation glyph of a control character: [^] followed by the
    character with bit 6 flipped ([^@] for NUL, ..., [^_] for US, [^?] for
    DEL). *)
Definition caret (c : uchar) : ustring := [ord "^"; N.lxor c 0x40].

(** ** Further parts of the embedding and vocabulary *)

(** The stored cell at a position of the grid, [None] where nothing was
    written. *)
Definition grid_lookup (buffer : grid) (y x : Z) : option Char.t :=
  buffer !! y ≫= fun row => row !! x.



(** The rows recorded so far, against the local state of [write_data]. *)
Record rows_inv (chars : list (TokenType * uchar)) (st : Screen.locals) : Prop := {
  rows_index : Screen.index st = length chars;
  rows_keys : forall i, is_Some (Screen.indexes_to_pos st !! i) -> i < length chars;
  rows_bound : forall i x y,
      Screen.indexes_to_pos st !! i = Some (x, y) -> (0 <= y <= Screen.y st)%Z;
  rows_mono : forall i j xi yi xj yj,
      i <= j ->
      Screen.indexes_to_pos st !! i = Some (xi, yi) ->
      Screen.indexes_to_pos st !! j = Some (xj, yj) ->
      (yi <= yj)%Z
}.

(** The placeholders of the wide characters consumed so far, against the
    local state of [write_data]. *)
Record sentinel_inv (get_cwidth : ustring -> Z) (default_char : Char.t)
    (chars : list (TokenType * uchar)) (st : Screen.locals) : Prop := {
  sentinel_index : Screen.index st = length chars;
  sentinel_cell : forall i token c xi yi,
      chars !! i = Some (token, c) -> c <> newline ->
      (1 < Char.width (_CHAR_CACHE get_cwidth [c] token))%Z ->
      Screen.indexes_to_pos st !! i = Some (xi, yi) ->
      grid_get default_char (Screen.buffer st) yi (xi + 1)
      = Char.__init__ get_cwidth [0%N] Token
      /\ behind st yi (xi + 1)
}.

(** The number of newlines among the first [i] characters: the number of
    the input line that offset [i] is on. *)
Definition newlines_before (chars : list (TokenType * uchar)) (i : nat) : nat :=
  length (filter (fun p : TokenType * uchar => p.2 = newline) (take i chars)).

(** Offset [i] is the first of an input line: it is offset 0 or follows a
    newline. *)
Definition line_start (chars : list (TokenType * uchar)) (i : nat) : Prop :=
  match i with
  | 0 => True
  | S j => exists token, chars !! j = Some (token, newline)
  end.

(** The line mapping built so far, against the local state of [write_data];
    [s2i0] is the mapping before the call. *)
Record lines_inv (s2i0 : gmap Z nat) (chars : list (TokenType * uchar))
    (st : Screen.locals) : Prop := {
  lines_index : Screen.index st = length chars;
  lines_number : Screen.line_number st = newlines_before chars (length chars);
  lines_feed : Screen.requires_line_feed st = true <-> line_start chars (length chars);
  lines_x : Screen.requires_line_feed st = true -> Screen.x st = 0%Z;
  lines_keys : forall i, is_Some (Screen.indexes_to_pos st !! i) -> i < length chars;
  lines_rows : forall i x y,
      Screen.indexes_to_pos st !! i = Some (x, y) ->
      (y <= Screen.y st)%Z /\ (Screen.requires_line_feed st = true -> (y < Screen.y st)%Z);
  lines_start : forall i x y,
      line_start chars i -> Screen.indexes_to_pos st !! i = Some (x, y) ->
      Screen.s2i st !! y = Some (newlines_before chars i);
  lines_other : forall r,
      (forall i x, line_start chars i -> Screen.indexes_to_pos st !! i = Some (x, r) -> False) ->
      Screen.s2i st !! r = s2i0 !! r
}.

Definition Token_SelectedText : TokenType := ["SelectedText"%string].

(** A value an invalidation hash is made of: [None], a string or an
    integer. *)
Inductive hash_value : Type :=
  | HashNone
  | HashStr (s : ustring)
  | HashInt (n : nat).

Section MoreProcessors.

Variable CommandLineInterface : Type.

(** [Document.selection_range()], defined in [prompt_toolkit/document.py]:
    a parameter; [None] when nothing is selected. *)
Variable selection_range : Document -> option (nat * nat).

(** [HighlightSelectionProcessor.run]. *)
Definition HighlightSelectionProcessor_run (cli : CommandLineInterface)
    (buffer : Buffer) (tokens : tokenlist) : option (tokenlist * index_remap) :=
  let selection_range := selection_range (document buffer) in
  match selection_range with
  | Some (from_, to) =>
      tokens ← for_each (retag Token_SelectedText) (seq from_ (to - from_)) tokens;
      Some (tokens, fun i => i)
  | None => Some (tokens, fun i => i)
  end.

Definition HighlightSelectionProcessor : Processor CommandLineInterface :=
  {| run := HighlightSelectionProcessor_run |}.

(** [HighlightSearchProcessor.invalidation_hash]: the tuple of the search
    state, [state and text] and [state and text and cursor_position], where
    [a and b] is [a] when [a] is falsy ([None], the empty string) and [b]
    otherwise. *)
Definition HighlightSearchProcessor_invalidation_hash (cli : CommandLineInterface)
    (buffer : Buffer) : option ISearchState * hash_value * hash_value :=
  (isearch_state buffer,
   match isearch_state buffer with
   | None => HashNone
   | Some state => HashStr (isearch_text state)
   end,
   match isearch_state buffer with
   | None => HashNone
   | Some state =>
       match isearch_text state with
       | [] => HashStr []
       | _ :: _ => HashInt (cursor_position buffer)
       end
   end).

End MoreProcessors.

(** The fragment at offset [i] passes the test [text in '({[]})']. *)
Definition bracket_text (tokens : tokenlist) (i : nat) : Prop :=
  exists token text, tokens !! i = Some (token, text) /\ str_in text (u "({[]})") = true.

(** What the loops of [BracketsMismatchProcessor.run] keep, against the
    stream [tokens0] the processor was given. *)
Record brackets_inv (tokens0 : tokenlist) (stack : list nat) (tokens : tokenlist) : Prop := {
  brackets_length : length tokens = length tokens0;
  brackets_texts : tokens.*2 = tokens0.*2;
  brackets_tokens : forall i,
      tokens !! i = tokens0 !! i
      \/ (bracket_text tokens0 i /\ token_at tokens i = Some Token_Error);
  brackets_stack : Forall (bracket_text tokens0) stack
}.

(* ===================================================================== *)
(** * Part II: properties                                                 *)
(* ===================================================================== *)

(** ** [Char] and the character cache *)

Section CharFacts.

Variable get_cwidth : ustring -> Z.

Lemma display_mappings_caret (c : uchar) :
  ((c <= 0x1f)%N \/ c = 0x7f%N) -> c <> 0x1e%N ->
  Char.display [c] = caret c.
Proof.
  intros Hc Hne.
  assert (Hlt : (c < 128)%N) by lia.
  destruct c as [|p]; [reflexivity|].
  do 7 (try destruct p as [p|p|]); try reflexivity; try lia.
Qed.

Lemma display_mappings_other (s : ustring) :
  (forall c, s = [c] -> (0x1f < c)%N /\ c <> 0x7f%N) ->
  Char.display s = s.
Proof.
  intros H. unfold Char.display, Char.display_mappings.
  rewrite (not_elem_of_list_to_map_1 _ s); [reflexivity|]. intros Hin.
  cbn in Hin. set_unfold.
  repeat (destruct Hin as [->|Hin]; [destruct (H _ eq_refl); lia|]).
  exact Hin.
Qed.

(** The control characters the table has are displayed in caret notation,
    and the width is that of the substituted glyph. *)
Lemma Char_init_control (c : uchar) (token : TokenType) :
  ((c <= 0x1f)%N \/ c = 0x7f%N) -> c <> 0x1e%N ->
  Char.__init__ get_cwidth [c] token =
  {| Char.char := caret c; Char.token := token;
     Char.width := get_cwidth (caret c) |}.
Proof.
  intros Hc Hne. unfold Char.__init__.
  rewrite (display_mappings_caret c Hc Hne). reflexivity.
Qed.

(** Any other character is displayed as it is. *)
Lemma Char_init_plain (c : uchar) (token : TokenType) :
  (0x1f < c)%N -> c <> 0x7f%N ->
  Char.__init__ get_cwidth [c] token =
  {| Char.char := [c]; Char.token := token; Char.width := get_cwidth [c] |}.
Proof.
  intros H1 H2. unfold Char.__init__.
  rewrite display_mappings_other; [reflexivity|].
  intros c' [= <-]. split; assumption.
Qed.

(** The memoizing lookup returns the value the embedding of [write_data]
    uses for it, and keeps the cache consistent. *)
Lemma CharCache_getitem_value (cache : CharCache) (char : ustring) (token : TokenType) :
  CharCache_consistent get_cwidth cache ->
  (CharCache_getitem get_cwidth cache (char, token)).1 = _CHAR_CACHE get_cwidth char token
  /\ CharCache_consistent get_cwidth (CharCache_getitem get_cwidth cache (char, token)).2.
Proof.
  intros Hok. unfold CharCache_getitem.
  destruct (cache !! (char, token)) as [c|] eqn:Hc; simpl.
  - split; [exact (Hok _ _ Hc) | exact Hok].
  - split; [reflexivity|].
    intros key c' Hl.
    apply lookup_insert_Some in Hl as [[<- <-]|[_ Hl]]; [reflexivity|].
    exact (Hok _ _ Hl).
Qed.

Lemma CharCache_empty_consistent : CharCache_consistent get_cwidth ∅.
Proof. intros key c Hl. by apply lookup_empty_Some in Hl. Qed.

(** C2, at the character the table leaves out: U+001E (RS) lies between NUL
    and US, but [display_mappings] has no entry for it, so the cell keeps
    the raw control character as its glyph instead of the caret sequence [^^],
    and the width is computed from the raw character. *)
Theorem Char_init_record_separator (token : TokenType) :
  Char.display [0x1e%N] = [0x1e%N]
  /\ Char.char (Char.__init__ get_cwidth [0x1e%N] token) = [0x1e%N]
  /\ Char.char (Char.__init__ get_cwidth [0x1e%N] token) <> caret 0x1e%N
  /\ caret 0x1e%N = u "^^"
  /\ Char.width (Char.__init__ get_cwidth [0x1e%N] token) = get_cwidth [0x1e%N].
Proof. repeat split; try reflexivity. discriminate. Qed.

End CharFacts.

(** ** [WritePosition] *)

Lemma assert_Some (b : bool) : assert b = Some () <-> b = true.
Proof. destruct b; simpl; split; congruence. Qed.

(** What a successful construction tells: every assertion held and the
    fields are the arguments, with [extended_height or height]. *)
Lemma WritePosition_init_Some (xpos ypos width height : Z)
    (extended_height : option Z) (wp : WritePosition.t) :
  WritePosition.__init__ xpos ypos width height extended_height = Some wp ->
  (0 <= xpos)%Z /\ (0 <= ypos)%Z /\ (0 <= width)%Z /\ (0 <= height)%Z
  /\ (forall e, extended_height = Some e -> (0 <= e)%Z)
  /\ wp = {| WritePosition.xpos := xpos; WritePosition.ypos := ypos;
             WritePosition.width := width; WritePosition.height := height;
             WritePosition.extended_height :=
               WritePosition.or_height extended_height height |}.
Proof.
  unfold WritePosition.__init__. intros H.
  destruct (assert (0 <=? height)%Z) eqn:H1; [|discriminate]. simpl in H.
  destruct (assert match extended_height with
                   | Some e => (0 <=? e)%Z
                   | None => true
                   end) eqn:H2; [|discriminate]. simpl in H.
  destruct (assert (0 <=? width)%Z) eqn:H3; [|discriminate]. simpl in H.
  destruct (assert (0 <=? xpos)%Z) eqn:H4; [|discriminate]. simpl in H.
  destruct (assert (0 <=? ypos)%Z) eqn:H5; [|discriminate]. simpl in H.
  injection H as <-.
  destruct u0, u1, u2, u3, u4.
  apply assert_Some in H1, H2, H3, H4, H5.
  repeat split; try lia.
  intros e ->. lia.
Qed.

(** When every assertion holds the construction succeeds, and stores
    [extended_height or height]. *)
Lemma WritePosition_init_accepts (xpos ypos width height : Z)
    (extended_height : option Z) :
  (0 <= xpos)%Z -> (0 <= ypos)%Z -> (0 <= width)%Z -> (0 <= height)%Z ->
  (forall e, extended_height = Some e -> (0 <= e)%Z) ->
  WritePosition.__init__ xpos ypos width height extended_height =
    Some {| WritePosition.xpos := xpos; WritePosition.ypos := ypos;
            WritePosition.width := width; WritePosition.height := height;
            WritePosition.extended_height :=
              WritePosition.or_height extended_height height |}.
Proof.
  intros Hx Hy Hw Hh He. unfold WritePosition.__init__.
  rewrite (proj2 (assert_Some (0 <=? height)%Z)) by lia.
  cbn [mbind option_bind].
  assert (match extended_height with
          | Some e => (0 <=? e)%Z
          | None => true
          end = true) as ->.
  { destruct extended_height as [e|]; [|reflexivity].
    specialize (He e eq_refl). lia. }
  cbn [assert mbind option_bind].
  rewrite (proj2 (assert_Some (0 <=? width)%Z)) by lia.
  rewrite (proj2 (assert_Some (0 <=? xpos)%Z)) by lia.
  rewrite (proj2 (assert_Some (0 <=? ypos)%Z)) by lia.
  reflexivity.
Qed.

(** C8, as stated, fails: a positive extended height below the height passes
    every assertion and is stored as it is. *)
Lemma WritePosition_extended_height_below_height :
  ~ (forall xpos ypos width height extended_height wp,
       WritePosition.__init__ xpos ypos width height extended_height = Some wp ->
       (WritePosition.height wp <= WritePosition.extended_height wp)%Z).
Proof.
  intros H.
  specialize (H 0%Z 0%Z 1%Z 5%Z (Some 3%Z) _ eq_refl).
  simpl in H. lia.
Qed.

(** C8, amended: construction fails whenever one of [xpos], [ypos], [width],
    [height] or a supplied [extended_height] is negative, and succeeds
    otherwise; a constructed position has the four arguments as its fields
    and all five fields non-negative; its extended height is the height when
    none is supplied and also when 0 is supplied, and the supplied value
    otherwise, whether or not that is at least the height. *)
Theorem WritePosition_init_checked (xpos ypos width height : Z)
    (extended_height : option Z) :
  ((xpos < 0)%Z \/ (ypos < 0)%Z \/ (width < 0)%Z \/ (height < 0)%Z
   \/ (exists e, extended_height = Some e /\ (e < 0)%Z) ->
   WritePosition.__init__ xpos ypos width height extended_height = None)
  /\ ((0 <= xpos)%Z -> (0 <= ypos)%Z -> (0 <= width)%Z -> (0 <= height)%Z ->
      (forall e, extended_height = Some e -> (0 <= e)%Z) ->
      exists wp,
        WritePosition.__init__ xpos ypos width height extended_height = Some wp)
  /\ (forall wp,
        WritePosition.__init__ xpos ypos width height extended_height = Some wp ->
        WritePosition.xpos wp = xpos /\ WritePosition.ypos wp = ypos
        /\ WritePosition.width wp = width /\ WritePosition.height wp = height
        /\ (0 <= xpos)%Z /\ (0 <= ypos)%Z /\ (0 <= width)%Z /\ (0 <= height)%Z
        /\ (0 <= WritePosition.extended_height wp)%Z
        /\ (extended_height = None ->
            WritePosition.extended_height wp = WritePosition.height wp)
        /\ (extended_height = Some 0%Z ->
            WritePosition.extended_height wp = WritePosition.height wp)
        /\ (forall e, extended_height = Some e -> e <> 0%Z ->
            WritePosition.extended_height wp = e)).
Proof.
  split; [|split].
  - intros Hneg.
    destruct (WritePosition.__init__ xpos ypos width height extended_height)
      as [wp|] eqn:Hwp; [|reflexivity].
    apply WritePosition_init_Some in Hwp as (Hx & Hy & Hw & Hh & He & _).
    destruct Hneg as [?|[?|[?|[?|(e & -> & ?)]]]]; try lia.
    specialize (He e eq_refl). lia.
  - intros Hx Hy Hw Hh He. eexists.
    by apply WritePosition_init_accepts.
  - intros wp Hwp.
    apply WritePosition_init_Some in Hwp as (Hx & Hy & Hw & Hh & He & ->).
    simpl. repeat split; try assumption.
    + unfold WritePosition.or_height. destruct extended_height as [e|]; [|lia].
      specialize (He e eq_refl). destruct (e =? 0)%Z; lia.
    + intros ->. reflexivity.
    + intros ->. reflexivity.
    + intros e -> Hne. unfold WritePosition.or_height.
      destruct (Z.eqb_spec e 0); [contradiction|reflexivity].
Qed.

(** C10: with non-negative coordinates and dimensions, an explicit extended
    height of 0 is accepted, and what is stored is the height; and whatever
    the arguments, a constructed position whose extended height is 0 has
    height 0, so a zero extended height different from the height cannot be
    represented. *)
Theorem WritePosition_extended_height_zero (xpos ypos width height : Z) :
  (0 <= xpos)%Z -> (0 <= ypos)%Z -> (0 <= width)%Z -> (0 <= height)%Z ->
  WritePosition.__init__ xpos ypos width height (Some 0%Z) =
    Some {| WritePosition.xpos := xpos; WritePosition.ypos := ypos;
            WritePosition.width := width; WritePosition.height := height;
            WritePosition.extended_height := height |}
  /\ (forall extended_height wp,
        WritePosition.__init__ xpos ypos width height extended_height = Some wp ->
        WritePosition.extended_height wp = 0%Z ->
        WritePosition.height wp = 0%Z).
Proof.
  intros Hx Hy Hw Hh. split.
  - unfold WritePosition.__init__.
    rewrite (proj2 (assert_Some (0 <=? height)%Z)) by lia.
    rewrite (proj2 (assert_Some (0 <=? width)%Z)) by lia.
    rewrite (proj2 (assert_Some (0 <=? xpos)%Z)) by lia.
    rewrite (proj2 (assert_Some (0 <=? ypos)%Z)) by lia.
    reflexivity.
  - intros e wp Hwp.
    apply WritePosition_init_Some in Hwp as (_ & _ & _ & _ & _ & ->).
    simpl. unfold WritePosition.or_height.
    destruct e as [e|]; [|trivial].
    destruct (Z.eqb_spec e 0); [trivial|]. intros ->. contradiction.
Qed.

Lemma WritePosition_init_checked_witness :
  WritePosition.__init__ 0%Z (-1)%Z 80%Z 1%Z None = None
  /\ WritePosition.__init__ 0%Z 0%Z 80%Z 1%Z (Some (-2)%Z) = None
  /\ (exists wp,
        WritePosition.__init__ 0%Z 0%Z 1%Z 5%Z (Some 3%Z) = Some wp
        /\ WritePosition.height wp = 5%Z
        /\ WritePosition.extended_height wp = 3%Z)
  /\ (exists wp,
        WritePosition.__init__ 2%Z 3%Z 80%Z 4%Z None = Some wp
        /\ WritePosition.height wp = 4%Z
        /\ WritePosition.extended_height wp = 4%Z)
  /\ (exists wp,
        WritePosition.__init__ 0%Z 0%Z 80%Z 3%Z (Some 0%Z) = Some wp
        /\ WritePosition.height wp = 3%Z
        /\ WritePosition.extended_height wp = 3%Z).
Proof.
  split; [|split; [|split; [|split]]].
  - apply (proj1 (WritePosition_init_checked 0%Z (-1)%Z 80%Z 1%Z None)). lia.
  - apply (proj1 (WritePosition_init_checked 0%Z 0%Z 80%Z 1%Z (Some (-2)%Z))).
    do 4 right. exists (-2)%Z. split; [reflexivity | lia].
  - destruct (WritePosition_init_checked 0%Z 0%Z 1%Z 5%Z (Some 3%Z))
      as (_ & Hok & Hfields).
    destruct Hok as [wp Hwp]; try lia.
    { intros e [= <-]. lia. }
    exists wp. split; [exact Hwp|].
    destruct (Hfields wp Hwp) as (_ & _ & _ & Hh & _ & _ & _ & _ & _ & _ & _ & Hsome).
    split; [exact Hh|]. apply Hsome; [reflexivity | lia].
  - destruct (WritePosition_init_checked 2%Z 3%Z 80%Z 4%Z None)
      as (_ & Hok & Hfields).
    destruct Hok as [wp Hwp]; try lia.
    { intros e [=]. }
    exists wp. split; [exact Hwp|].
    destruct (Hfields wp Hwp) as (_ & _ & _ & Hh & _ & _ & _ & _ & _ & Hnone & _).
    split; [exact Hh|]. rewrite Hnone by reflexivity. exact Hh.
  - destruct (WritePosition_init_checked 0%Z 0%Z 80%Z 3%Z (Some 0%Z))
      as (_ & Hok & Hfields).
    destruct Hok as [wp Hwp]; try lia.
    { intros e [= <-]. lia. }
    exists wp. split; [exact Hwp|].
    destruct (Hfields wp Hwp) as (_ & _ & _ & Hh & _ & _ & _ & _ & _ & _ & Hzero & _).
    split; [exact Hh|]. rewrite Hzero by reflexivity. exact Hh.
Defined.

Lemma WritePosition_extended_height_zero_witness :
  WritePosition.__init__ 0%Z 0%Z 80%Z 3%Z (Some 0%Z) =
    Some {| WritePosition.xpos := 0; WritePosition.ypos := 0;
            WritePosition.width := 80; WritePosition.height := 3;
            WritePosition.extended_height := 3 |}.
Proof.
  apply (proj1 (WritePosition_extended_height_zero 0%Z 0%Z 80%Z 3%Z
                  ltac:(lia) ltac:(lia) ltac:(lia) ltac:(lia))).
Defined.

(** ** [Screen.write_data]: what it leaves alone *)

Section ScreenFrame.

Variable get_cwidth : ustring -> Z.

(** C9: whatever the data, the width and the margin, [write_data] leaves
    [cursor_position], [menu_position] and [width] (and the default
    character) as they were, and [current_height] does not decrease; the
    grid, the line mapping and [current_height] are the only fields it
    assigns. *)
Theorem write_data_frame (self : Screen.t) (data : tokenlist) (width : Z)
    (margin : option margin_fn) :
  let self' := (Screen.write_data get_cwidth self data width margin).1 in
  Screen.cursor_position self' = Screen.cursor_position self
  /\ Screen.menu_position self' = Screen.menu_position self
  /\ Screen.width self' = Screen.width self
  /\ Screen.default_char self' = Screen.default_char self
  /\ (Screen.current_height self <= Screen.current_height self')%Z.
Proof. simpl. repeat split. apply Z.le_max_l. Qed.

End ScreenFrame.

(** ** Insertion processors and the index remap *)

Lemma explode_cons (token : TokenType) (text : ustring) (data : tokenlist) :
  explode ((token, text) :: data) = ((fun c => (token, c)) <$> text) ++ explode data.
Proof. reflexivity. Qed.

Lemma explode_app (data1 data2 : tokenlist) :
  explode (data1 ++ data2) = explode data1 ++ explode data2.
Proof. unfold explode. apply bind_app. Qed.

Lemma token_list_len_explode (tokens : tokenlist) :
  token_list_len tokens = length (explode tokens).
Proof.
  induction tokens as [|[token text] tokens IH]; [reflexivity|].
  rewrite explode_cons, length_app, length_fmap, <- IH. reflexivity.
Qed.

Section Insertion.

Variable CommandLineInterface : Type.

(** C7: [BeforeInput] returns the generated tokens followed by the input,
    and its remap sends every offset [i] to [i + K], with [K] the number of
    characters of the generated tokens, which is where character [i] of the
    input now sits; followed by any processor whose remap is the identity,
    the composed remap still sends [i] to [i + K]. [AfterInput] returns the
    input followed by the generated tokens, with the identity remap. *)
Theorem BeforeInput_shifts_by_prefix (get_tokens : CommandLineInterface -> Buffer -> tokenlist)
    (cli : CommandLineInterface) (buffer : Buffer) (tokens : tokenlist) :
  let prefix := get_tokens cli buffer in
  let K := length (explode prefix) in
  (exists f, run _ (BeforeInput _ get_tokens) cli buffer tokens
             = Some (prefix ++ tokens, f)
             /\ forall i, f i = i + K)
  /\ (forall i, explode (prefix ++ tokens) !! (i + K) = explode tokens !! i)
  /\ (forall (next : Processor CommandLineInterface) tokens' g,
        run _ next cli buffer (prefix ++ tokens) = Some (tokens', g) ->
        (forall i, g i = i) ->
        exists h, run_pipeline _ [BeforeInput _ get_tokens; next] cli buffer tokens
                  = Some (tokens', h)
                  /\ forall i, h i = i + K)
  /\ run _ (AfterInput _ get_tokens) cli buffer tokens
     = Some (tokens ++ prefix, fun i => i).
Proof.
  intros prefix K. repeat split.
  - eexists. split; [reflexivity|].
    intros i. simpl. unfold K, prefix. by rewrite token_list_len_explode.
  - intros i. rewrite explode_app, lookup_app_r by (fold prefix K; lia).
    f_equal. fold prefix K. lia.
  - intros next tokens' g Hnext Hg.
    eexists. unfold run_pipeline. cbn [for_each].
    change (run _ (BeforeInput _ get_tokens) cli buffer tokens)
      with (Some (prefix ++ tokens, fun i => i + token_list_len prefix)).
    cbn [mbind option_bind]. rewrite Hnext. cbn. split; [reflexivity|].
    intros i. simpl. rewrite Hg. unfold K, prefix.
    by rewrite token_list_len_explode.
Qed.

End Insertion.

Lemma BeforeInput_shifts_by_prefix_witness :
  exists h,
    run_pipeline unit [BeforeInput_static unit (u ">>> ") Token;
                       PasswordProcessor unit (u "*")]
                 () (mkBuffer None (mkDocument (u "ab") 0)) (spell Token (u "ab"))
    = Some ([(Token, u "****"); (Token, u "*"); (Token, u "*")], h)
    /\ forall i, h i = i + 4.
Proof.
  apply (proj1 (proj2 (proj2
    (BeforeInput_shifts_by_prefix unit (fun _ _ => [(Token, u ">>> ")]) ()
       (mkBuffer None (mkDocument (u "ab") 0)) (spell Token (u "ab")))))
    (PasswordProcessor unit (u "*")) _ (fun i => i)).
  - reflexivity.
  - reflexivity.
Defined.

(** ** The bracket-mismatch processor *)

Lemma str_in_singleton (c : uchar) (s : ustring) :
  str_in [c] s = bool_decide (c ∈ s).
Proof.
  unfold str_in. destruct (bool_decide_reflect (c ∈ s)) as [Hin|Hnin].
  - apply list_elem_of_lookup in Hin as [i Hi].
    apply existsb_exists. exists i. split.
    + apply in_seq. apply lookup_lt_Some in Hi. lia.
    + apply bool_decide_eq_true. rewrite (drop_S _ _ _ Hi). reflexivity.
  - apply not_true_is_false. intros H.
    apply existsb_exists in H as (i & _ & Hi).
    apply bool_decide_eq_true in Hi. apply Hnin.
    apply list_elem_of_lookup. exists i.
    rewrite <- (Nat.add_0_r i), <- lookup_drop.
    destruct (drop i s); [discriminate|]. simpl in *. congruence.
Qed.

Lemma one_char_lookup (tokens : tokenlist) (i : nat) :
  one_char_fragments tokens ->
  (explode tokens).*2 !! i = tokens !! i ≫= fun p => head p.2.
Proof.
  intros Hone. revert i.
  induction Hone as [|[token text] tokens Hlen _ IH]; intros i; [reflexivity|].
  destruct text as [|c [|? ?]]; try discriminate.
  destruct i as [|i]; [reflexivity|]. apply IH.
Qed.

Lemma one_char_text (tokens : tokenlist) (i : nat) (token : TokenType) (text : ustring) :
  one_char_fragments tokens -> tokens !! i = Some (token, text) ->
  exists c, text = [c] /\ (explode tokens).*2 !! i = Some c.
Proof.
  intros Hone Hi. rewrite (one_char_lookup _ _ Hone), Hi. simpl.
  eapply Forall_lookup_1 in Hone; [|exact Hi]. simpl in Hone.
  destruct text as [|c [|? ?]]; try discriminate. eauto.
Qed.

Lemma one_char_length (tokens : tokenlist) :
  one_char_fragments tokens -> length (explode tokens).*2 = length tokens.
Proof.
  intros Hone. induction Hone as [|[token text] tokens Hlen _ IH]; [reflexivity|].
  destruct text as [|c [|? ?]]; try discriminate. simpl. f_equal. exact IH.
Qed.

Lemma mark_errors_length errors tokens :
  length (mark_errors errors tokens) = length tokens.
Proof. apply length_imap. Qed.

Lemma mark_errors_lookup errors (tokens : tokenlist) i :
  mark_errors errors tokens !! i =
  (fun '(token, text) =>
     if bool_decide (i ∈ errors) then (Token_Error, text) else (token, text))
    <$> tokens !! i.
Proof. unfold mark_errors. apply list_lookup_imap. Qed.

Lemma mark_errors_texts errors (tokens : tokenlist) :
  (mark_errors errors tokens).*2 = tokens.*2.
Proof.
  apply list_eq. intros i. rewrite !list_lookup_fmap, mark_errors_lookup.
  destruct (tokens !! i) as [[token text]|]; [|reflexivity]. cbn -[bool_decide].
  by case_bool_decide.
Qed.

Lemma mark_errors_nil (tokens : tokenlist) : mark_errors [] tokens = tokens.
Proof.
  apply list_eq. intros i. rewrite mark_errors_lookup.
  destruct (tokens !! i) as [[token text]|]; [|reflexivity]. cbn -[bool_decide].
  rewrite bool_decide_eq_false_2; [reflexivity|]. apply not_elem_of_nil.
Qed.

Lemma mark_errors_ext errors errors' (tokens : tokenlist) :
  (forall i, i ∈ errors <-> i ∈ errors') ->
  mark_errors errors tokens = mark_errors errors' tokens.
Proof.
  intros Heq. apply list_eq. intros i. rewrite !mark_errors_lookup.
  destruct (tokens !! i) as [[token text]|]; [|reflexivity]. cbn -[bool_decide].
  by rewrite (bool_decide_ext _ _ (Heq i)).
Qed.

Lemma mark_errors_insert errors (tokens : tokenlist) i token text :
  tokens !! i = Some (token, text) ->
  <[i := (Token_Error, text)]> (mark_errors errors tokens)
  = mark_errors (i :: errors) tokens.
Proof.
  intros Hi. apply list_eq. intros j.
  destruct (decide (i = j)) as [<-|Hne].
  - rewrite list_lookup_insert_eq
      by (rewrite mark_errors_length; by eapply lookup_lt_Some).
    rewrite mark_errors_lookup, Hi. cbn -[bool_decide].
    rewrite bool_decide_eq_true_2; [reflexivity|]. apply list_elem_of_here.
  - rewrite list_lookup_insert_ne by done. rewrite !mark_errors_lookup.
    destruct (tokens !! j) as [[token' text']|]; [|reflexivity]. cbn -[bool_decide].
    rewrite (bool_decide_ext (j ∈ i :: errors) (j ∈ errors)); [reflexivity|].
    rewrite elem_of_cons. split; [intros [?|?]; [congruence|done] | by right].
Qed.

Lemma retag_mark_errors errors (tokens : tokenlist) i :
  i < length tokens ->
  retag Token_Error (mark_errors errors tokens) i
  = Some (mark_errors (i :: errors) tokens).
Proof.
  intros Hi. apply lookup_lt_is_Some in Hi as [[token text] Hi].
  unfold retag. rewrite mark_errors_lookup, Hi. cbn -[bool_decide].
  case_bool_decide; cbn -[bool_decide]; by erewrite mark_errors_insert.
Qed.

Lemma retag_all_mark_errors (stack errors : list nat) (tokens : tokenlist) :
  Forall (fun i => i < length tokens) stack ->
  for_each (retag Token_Error) stack (mark_errors errors tokens)
  = Some (mark_errors (reverse stack ++ errors) tokens).
Proof.
  intros Hall. revert errors.
  induction Hall as [|i stack Hi _ IH]; intros errors; [reflexivity|].
  simpl. rewrite retag_mark_errors by done. simpl. rewrite IH.
  by rewrite reverse_cons, <- app_assoc.
Qed.

Lemma mark_errors_lookup_text errors (tokens : tokenlist) i token text :
  tokens !! i = Some (token, text) ->
  exists token', mark_errors errors tokens !! i = Some (token', text).
Proof.
  intros Hi. rewrite mark_errors_lookup, Hi. cbn -[bool_decide].
  case_bool_decide; eauto.
Qed.

Lemma brackets_flags (c : uchar) :
  str_in [c] (u "({[") = is_opener run_brackets c
  /\ str_in [c] (u "({[]})") = is_opener run_brackets c || is_closer run_brackets c.
Proof.
  rewrite !str_in_singleton. unfold is_opener, is_closer. split; [reflexivity|].
  rewrite <- bool_decide_or. apply bool_decide_ext.
  cbn. rewrite !elem_of_cons, !elem_of_nil. tauto.
Qed.

Lemma brackets_match (c : uchar) (o : option uchar) :
  (bool_decide ([c] = u ")") && bool_decide (from_option (fun o => [o]) [] o = u "("))
  || (bool_decide ([c] = u "}") && bool_decide (from_option (fun o => [o]) [] o = u "{"))
  || (bool_decide ([c] = u "]") && bool_decide (from_option (fun o => [o]) [] o = u "["))
  = is_matching run_brackets o c.
Proof.
  destruct o as [o|]; cbn [from_option is_matching].
  - rewrite <- !bool_decide_and, <- !bool_decide_or. apply bool_decide_ext.
    unfold run_brackets. rewrite !elem_of_cons, elem_of_nil. cbn.
    split.
    + intros [[[[= ->] [= ->]]|[[= ->] [= ->]]]|[[= ->] [= ->]]]; tauto.
    + intros [[= -> ->]|[[= -> ->]|[[= -> ->]|[]]]]; tauto.
  - repeat case_bool_decide; try discriminate; reflexivity.
Qed.

Lemma brackets_step_one_char (tokens : tokenlist) (stack errors : list nat)
    (k : nat) (token : TokenType) (c : uchar) :
  one_char_fragments tokens ->
  tokens !! k = Some (token, [c]) ->
  Forall (fun i => i < length tokens) stack ->
  brackets_step (reverse stack, mark_errors errors tokens) k =
  Some (if is_opener run_brackets c
        then (reverse (k :: stack), mark_errors errors tokens)
        else if is_closer run_brackets c then
          match stack with
          | top :: stack' =>
              if is_matching run_brackets ((explode tokens).*2 !! top) c
              then (reverse stack', mark_errors errors tokens)
              else (reverse stack, mark_errors (k :: errors) tokens)
          | [] => (reverse stack, mark_errors (k :: errors) tokens)
          end
        else (reverse stack, mark_errors errors tokens)).
Proof.
  intros Hone Hk Hstack. unfold brackets_step.
  destruct (mark_errors_lookup_text errors _ _ _ _ Hk) as [token' Hk'].
  rewrite Hk'. cbn [mbind option_bind].
  rewrite last_reverse.
  assert (Htop : exists o : option uchar,
             match head stack with
             | Some i => snd <$> mark_errors errors tokens !! i
             | None => Some (u "")
             end = Some (from_option (fun o => [o]) [] o)
             /\ match stack with
                | top :: _ => (explode tokens).*2 !! top = o
                | [] => o = None
                end).
  { destruct stack as [|top stack']; [by exists None|].
    apply Forall_cons_1 in Hstack as [Htop _].
    apply lookup_lt_is_Some in Htop as [[ttoken ttext] Htop].
    destruct (one_char_text _ _ _ _ Hone Htop) as (o & -> & Ho).
    destruct (mark_errors_lookup_text errors _ _ _ _ Htop) as [ttoken' Htop'].
    exists (Some o). cbn [head]. rewrite Htop'. split; [reflexivity | exact Ho]. }
  destruct Htop as (o & -> & Ho). cbn [mbind option_bind].
  destruct (brackets_flags c) as [-> ->].
  rewrite brackets_match.
  destruct (is_opener run_brackets c); cbn [orb].
  - by rewrite reverse_cons.
  - destruct (is_closer run_brackets c); [|reflexivity].
    destruct stack as [|top stack'].
    + subst o. cbn [is_matching]. unfold error_token.
      by erewrite mark_errors_insert.
    + rewrite Ho. destruct (is_matching run_brackets o c).
      * by rewrite reverse_cons, removelast_last.
      * unfold error_token. by erewrite mark_errors_insert.
Qed.

Lemma brackets_scan_refines (tokens : tokenlist) :
  one_char_fragments tokens ->
  forall (rest : ustring) (k : nat) (stack errors : list nat),
    drop k (explode tokens).*2 = rest ->
    k + length rest = length tokens ->
    Forall (fun i => i < length tokens) stack ->
    for_each brackets_step (seq k (length rest))
             (reverse stack, mark_errors errors tokens)
    = Some (reverse (spec_scan run_brackets (explode tokens).*2 rest k stack errors).1,
            mark_errors (spec_scan run_brackets (explode tokens).*2 rest k stack errors).2
                        tokens)
    /\ Forall (fun i => i < length tokens)
              (spec_scan run_brackets (explode tokens).*2 rest k stack errors).1.
Proof.
  intros Hone rest.
  induction rest as [|c rest IH]; intros k stack errors Hdrop Hlen Hstack.
  { split; [reflexivity | exact Hstack]. }
  assert (Hc : (explode tokens).*2 !! k = Some c).
  { rewrite <- (Nat.add_0_r k), <- lookup_drop, Hdrop. reflexivity. }
  assert (Hk : exists token, tokens !! k = Some (token, [c])).
  { rewrite (one_char_lookup _ _ Hone) in Hc.
    destruct (tokens !! k) as [[token text]|] eqn:Hk; [|discriminate].
    destruct (one_char_text _ _ _ _ Hone Hk) as (c' & -> & _).
    injection Hc as ->. eauto. }
  destruct Hk as [token Hk].
  assert (Hdrop' : drop (S k) (explode tokens).*2 = rest).
  { rewrite <- Nat.add_1_r, <- drop_drop, Hdrop. reflexivity. }
  cbn [length seq for_each spec_scan] in *.
  rewrite (brackets_step_one_char _ _ _ _ _ _ Hone Hk Hstack).
  cbn [mbind option_bind].
  assert (Hklt : k < length tokens) by lia.
  destruct (is_opener run_brackets c).
  { apply IH; [done | lia | by constructor]. }
  destruct (is_closer run_brackets c); [|apply IH; [done | lia | done]].
  destruct stack as [|top stack'].
  { apply IH; [done | lia | done]. }
  destruct (is_matching run_brackets ((explode tokens).*2 !! top) c).
  - apply IH; [done | lia | by apply Forall_cons_1 in Hstack as [_ ?]].
  - apply IH; [done | lia | done].
Qed.

Ltac not_a_bracket :=
  let H := fresh "Hin" in
  intros H; cbn in H; rewrite ?elem_of_cons, ?elem_of_nil in H;
  decompose [or] H; (discriminate || contradiction).

Lemma run_brackets_pair (o c : uchar) :
  (o, c) ∈ run_brackets ->
  is_opener run_brackets o = true
  /\ is_opener run_brackets c = false
  /\ is_closer run_brackets c = true
  /\ is_matching run_brackets (Some o) c = true.
Proof.
  unfold run_brackets. rewrite !elem_of_cons, elem_of_nil.
  intros [[= -> ->]|[[= -> ->]|[[= -> ->]|[]]]]; repeat split.
Qed.

Lemma spec_scan_balanced (whole w : ustring) :
  balanced run_brackets w ->
  forall (rest : ustring) (i : nat) (stack errors : list nat),
    drop i whole = w ++ rest ->
    spec_scan run_brackets whole (w ++ rest) i stack errors
    = spec_scan run_brackets whole rest (i + length w) stack errors.
Proof.
  induction 1 as [|c w Hno Hnc _ IH|o c w1 w2 Hpair _ IH1 _ IH2];
    intros rest i stack errors Hdrop.
  - by rewrite Nat.add_0_r.
  - cbn [app spec_scan length]. unfold is_opener, is_closer.
    rewrite !bool_decide_eq_false_2 by done.
    rewrite IH; [f_equal; lia|].
    rewrite <- Nat.add_1_r, <- drop_drop, Hdrop. reflexivity.
  - destruct (run_brackets_pair _ _ Hpair) as (Ho & Hco & Hcc & Hm).
    assert (Hi : whole !! i = Some o).
    { rewrite <- (Nat.add_0_r i), <- lookup_drop, Hdrop. reflexivity. }
    cbn [app spec_scan length]. rewrite Ho, <- app_assoc.
    rewrite IH1
      by (rewrite <- Nat.add_1_r, <- drop_drop, Hdrop; cbn; by rewrite <- app_assoc).
    cbn [app spec_scan]. rewrite Hco, Hcc, Hi, Hm.
    rewrite IH2.
    + f_equal. rewrite length_app. cbn. lia.
    + assert (Hd : drop i whole = (o :: w1 ++ [c]) ++ (w2 ++ rest)).
      { rewrite Hdrop. cbn. by rewrite <- !app_assoc. }
      replace (S (S i + length w1)) with (i + length (o :: w1 ++ [c]))
        by (cbn; rewrite length_app; cbn; lia).
      rewrite <- drop_drop, Hd, drop_app_length. reflexivity.
Qed.

Lemma balanced_app (bs : bracket_set) (w1 w2 : ustring) :
  balanced bs w1 -> balanced bs w2 -> balanced bs (w1 ++ w2).
Proof.
  induction 1 as [|c w Hno Hnc _ IH|o c wa wb Hpair Ha _ _ IH]; intros H2.
  - exact H2.
  - apply balanced_plain; auto.
  - cbn [app]. rewrite <- app_assoc. cbn [app].
    apply balanced_pair; auto.
Qed.

(** A string balanced over the default set of the specification is balanced
    over the set the processor looks at, which takes [<] and [>] as plain
    characters. *)
Lemma balanced_default_run (w : ustring) :
  balanced spec_default_brackets w -> balanced run_brackets w.
Proof.
  induction 1 as [|c w Hno Hnc _ IH|o c w1 w2 Hpair _ IH1 _ IH2].
  - constructor.
  - apply balanced_plain; [| |exact IH].
    + intros Hin. apply Hno. revert Hin. cbn.
      rewrite !elem_of_cons, !elem_of_nil. tauto.
    + intros Hin. apply Hnc. revert Hin. cbn.
      rewrite !elem_of_cons, !elem_of_nil. tauto.
  - revert Hpair. unfold spec_default_brackets.
    rewrite !elem_of_cons, elem_of_nil.
    intros [[= -> ->]|[[= -> ->]|[[= -> ->]|[[= -> ->]|[]]]]].
    + apply balanced_pair; [|done..]. unfold run_brackets.
      rewrite !elem_of_cons. tauto.
    + apply balanced_pair; [|done..]. unfold run_brackets.
      rewrite !elem_of_cons. tauto.
    + apply balanced_pair; [|done..]. unfold run_brackets.
      rewrite !elem_of_cons. tauto.
    + apply balanced_plain; [not_a_bracket..|].
      apply balanced_app; [exact IH1|].
      apply balanced_plain; [not_a_bracket..|exact IH2].
Qed.

Section Brackets.
Variable CommandLineInterface : Type.

(** The processor computes the scan of the specification over the bracket
    set of its literals. *)
Lemma BracketsMismatchProcessor_run_refines (cli : CommandLineInterface)
    (buffer : Buffer) (tokens : tokenlist) :
  one_char_fragments tokens ->
  BracketsMismatchProcessor_run _ cli buffer tokens
  = Some (spec_brackets_mismatch run_brackets tokens, fun i => i).
Proof.
  intros Hone. unfold BracketsMismatchProcessor_run, spec_brackets_mismatch.
  destruct (brackets_scan_refines tokens Hone (explode tokens).*2 0 [] [])
    as [Hscan Hstack].
  { reflexivity. }
  { by rewrite one_char_length. }
  { constructor. }
  rewrite mark_errors_nil, one_char_length in Hscan by done.
  change (reverse []) with (@nil nat) in Hscan. rewrite Hscan.
  destruct (spec_scan run_brackets (explode tokens).*2 (explode tokens).*2 0 [] [])
    as [stack errors].
  cbn [mbind option_bind fst snd] in *.
  rewrite retag_all_mark_errors by (by apply Forall_reverse).
  cbn [mbind option_bind]. rewrite reverse_involutive.
  do 2 f_equal. apply mark_errors_ext. intros i.
  rewrite !elem_of_app. tauto.
Qed.


(** C5, amended: a balanced stream (one character per fragment; balanced
    over the processor's own set or over the default set of the
    specification) comes back unchanged; ["(a[b]c)"] gets no error tag;
    ["(a]"] gets two, on the ["]"] and on the ["("] that is still on the
    stack at the end; ["(a"] gets one, on the ["("]. *)
Theorem BracketsMismatchProcessor_run_balanced (cli : CommandLineInterface)
    (buffer : Buffer) (token : TokenType) :
  (forall tokens : tokenlist,
     one_char_fragments tokens ->
     balanced run_brackets (explode tokens).*2
     \/ balanced spec_default_brackets (explode tokens).*2 ->
     BracketsMismatchProcessor_run _ cli buffer tokens
     = Some (tokens, fun i => i))
  /\ BracketsMismatchProcessor_run _ cli buffer (spell token (u "(a[b]c)"))
     = Some (spell token (u "(a[b]c)"), fun i => i)
  /\ BracketsMismatchProcessor_run _ cli buffer (spell token (u "(a]"))
     = Some ([(Token_Error, u "("); (token, u "a"); (Token_Error, u "]")],
             fun i => i)
  /\ BracketsMismatchProcessor_run _ cli buffer (spell token (u "(a"))
     = Some ([(Token_Error, u "("); (token, u "a")], fun i => i).
Proof.
  split; [|repeat split].
  intros tokens Hone Hbal.
  assert (Hbal' : balanced run_brackets (explode tokens).*2).
  { destruct Hbal as [?|?]; [done | by apply balanced_default_run]. }
  rewrite BracketsMismatchProcessor_run_refines by done.
  unfold spec_brackets_mismatch.
  pose proof (spec_scan_balanced (explode tokens).*2 _ Hbal' [] 0 [] []) as Hscan.
  rewrite app_nil_r in Hscan. rewrite Hscan by reflexivity.
  cbn [spec_scan app]. by rewrite mark_errors_nil.
Qed.

End Brackets.


(** With more than one character in a fragment the tests [text in '({[]})']
    and [text in '({['] are substring tests: the fragment ["[]"] counts as a
    closer without a match, and an empty fragment as an opener. *)
Remark BracketsMismatchProcessor_run_fragments :
  BracketsMismatchProcessor_run unit () (mkBuffer None (mkDocument (u "[]") 0))
                                [(Token, u "[]")]
  = Some ([(Token_Error, u "[]")], fun i => i)
  /\ BracketsMismatchProcessor_run unit () (mkBuffer None (mkDocument (u "") 0))
                                   [(Token, u "")]
     = Some ([(Token_Error, u "")], fun i => i).
Proof. split; reflexivity. Qed.


(** C5, as stated, fails: what the processor returns for ["(a]"] is not the
    stream with the one error tag on the ["]"]; the ["("] is retagged too. *)
Lemma BracketsMismatchProcessor_run_mismatch_two_errors :
  ~ (exists f,
       BracketsMismatchProcessor_run unit () (mkBuffer None (mkDocument (u "(a]") 0))
                                     (spell Token (u "(a]"))
       = Some ([(Token, u "("); (Token, u "a"); (Token_Error, u "]")], f)).
Proof. intros [f [=]]. Qed.

Lemma BracketsMismatchProcessor_run_balanced_witness :
  BracketsMismatchProcessor_run unit () (mkBuffer None (mkDocument (u "(a[b]c)") 0))
                                (spell Token (u "(a[b]c)"))
  = Some (spell Token (u "(a[b]c)"), fun i => i).
Proof.
  apply (proj1 (BracketsMismatchProcessor_run_balanced unit ()
                  (mkBuffer None (mkDocument (u "(a[b]c)") 0)) Token)).
  - repeat constructor.
  - left.
    apply (balanced_pair _ (ord "(") (ord ")") (u "a[b]c") []);
      [repeat constructor| |constructor].
    apply balanced_plain; [not_a_bracket..|].
    apply (balanced_pair _ (ord "[") (ord "]") (u "b") (u "c"));
      [repeat constructor|..];
      (apply balanced_plain; [not_a_bracket..|constructor]).
Defined.

(** ** The search-highlight processor *)

Lemma retag_range_length token index len tokens :
  length (retag_range token index len tokens) = length tokens.
Proof. apply length_imap. Qed.

Lemma retag_range_lookup token index len (tokens : tokenlist) x :
  retag_range token index len tokens !! x =
  (fun '(token', text) =>
     if bool_decide (index <= x < index + len) then (token, text)
     else (token', text)) <$> tokens !! x.
Proof. unfold retag_range. apply list_lookup_imap. Qed.

Lemma retag_range_empty token index (tokens : tokenlist) :
  retag_range token index 0 tokens = tokens.
Proof.
  apply list_eq. intros x. rewrite retag_range_lookup.
  destruct (tokens !! x) as [[token' text]|]; [|reflexivity]. cbn -[bool_decide].
  rewrite bool_decide_eq_false_2; [reflexivity | lia].
Qed.

Lemma retag_retag_range token index len (tokens : tokenlist) :
  index + len < length tokens ->
  retag token (retag_range token index len tokens) (index + len)
  = Some (retag_range token index (S len) tokens).
Proof.
  intros Hlt. apply lookup_lt_is_Some in Hlt as [[token' text] Hx].
  unfold retag. rewrite retag_range_lookup, Hx. cbn -[bool_decide].
  rewrite bool_decide_eq_false_2 by lia. cbn. f_equal.
  apply list_eq. intros x. destruct (decide (x = index + len)) as [->|Hne].
  - rewrite list_lookup_insert_eq
      by (rewrite retag_range_length; by eapply lookup_lt_Some).
    rewrite retag_range_lookup, Hx. cbn -[bool_decide].
    rewrite bool_decide_eq_true_2; [reflexivity | lia].
  - rewrite list_lookup_insert_ne by done. rewrite !retag_range_lookup.
    destruct (tokens !! x) as [[token'' text'']|]; [|reflexivity].
    cbn -[bool_decide].
    rewrite (bool_decide_ext (index <= x < index + len)
                             (index <= x < index + S len)); [reflexivity | lia].
Qed.

(** The inner loop [for x in range(index, index + len)]. *)
Lemma for_each_retag_range token index len (tokens : tokenlist) :
  index + len <= length tokens ->
  for_each (retag token) (seq index len) tokens
  = Some (retag_range token index len tokens).
Proof.
  intros Hle.
  assert (Hgen : forall n m, n + m = len ->
            for_each (retag token) (seq (index + n) m)
                     (retag_range token index n tokens)
            = Some (retag_range token index len tokens)).
  { intros n m. revert n. induction m as [|m IH]; intros n Hnm.
    - rewrite Nat.add_0_r in Hnm. subst n. reflexivity.
    - cbn [seq for_each]. rewrite retag_retag_range by lia.
      cbn [mbind option_bind].
      replace (S (index + n)) with (index + S n) by lia. apply IH. lia. }
  specialize (Hgen 0 len eq_refl).
  by rewrite Nat.add_0_r, retag_range_empty in Hgen.
Qed.

Lemma last_covering_cons index occurrences len x :
  last_covering (index :: occurrences) len x =
  match last_covering occurrences len x with
  | Some i => Some i
  | None => if bool_decide (index <= x < index + len) then Some index else None
  end.
Proof.
  unfold last_covering. rewrite filter_cons.
  destruct (decide (index <= x < index + len)) as [Hc|Hc].
  - rewrite last_cons, bool_decide_eq_true_2 by done. reflexivity.
  - rewrite bool_decide_eq_false_2 by done.
    by destruct (last (filter _ occurrences)).
Qed.

Lemma last_covering_Some occurrences len x index :
  last_covering occurrences len x = Some index ->
  index ∈ occurrences /\ index <= x < index + len.
Proof.
  unfold last_covering. intros Hlast.
  apply last_Some_elem_of in Hlast. by apply list_elem_of_filter in Hlast as [? ?].
Qed.

Lemma last_covering_None occurrences len x index :
  last_covering occurrences len x = None ->
  index ∈ occurrences -> ~ index <= x < index + len.
Proof.
  unfold last_covering. intros Hlast Hin Hc.
  apply last_None in Hlast.
  assert (Hf : index ∈ filter (fun index => index <= x < index + len) occurrences)
    by (by apply list_elem_of_filter).
  rewrite Hlast in Hf. by apply elem_of_nil in Hf.
Qed.

(** The outer loop [for index in find_all(...)]. *)
Lemma for_each_occurrence (cursor len : nat) (occurrences : list nat) :
  forall tokens : tokenlist,
    Forall (fun index => index + len <= length tokens) occurrences ->
    exists tokens' : tokenlist,
      for_each (fun tokens index =>
                  for_each (retag (search_token cursor index)) (seq index len) tokens)
               occurrences tokens = Some tokens'
      /\ length tokens' = length tokens
      /\ forall x,
           tokens' !! x =
           (fun '(token, text) =>
              (match last_covering occurrences len x with
               | Some index => search_token cursor index
               | None => token
               end, text)) <$> tokens !! x.
Proof.
  induction occurrences as [|index occurrences IH]; intros tokens Hall.
  - exists tokens. split; [reflexivity|]. split; [reflexivity|].
    intros x. by destruct (tokens !! x) as [[token text]|].
  - apply Forall_cons_1 in Hall as [Hindex Hall].
    cbn [for_each]. rewrite for_each_retag_range by done.
    cbn [mbind option_bind].
    destruct (IH (retag_range (search_token cursor index) index len tokens))
      as (tokens' & Hrun & Hlen & Hlookup).
    { by rewrite retag_range_length. }
    exists tokens'. split; [exact Hrun|].
    split; [by rewrite Hlen, retag_range_length|].
    intros x. rewrite Hlookup, retag_range_lookup, last_covering_cons.
    destruct (tokens !! x) as [[token text]|]; [|reflexivity].
    cbn -[bool_decide].
    destruct (last_covering occurrences len x); by case_bool_decide.
Qed.

Section Search.
Variable CommandLineInterface : Type.
Variable find_all : Document -> ustring -> list nat.

(** C6, amended: with an active search state, and every match that
    [find_all] reports for the search text lying inside the stream (one
    character per fragment), the processor succeeds, keeps the length and the
    texts, returns the identity remap, and retags exactly the characters
    inside a reported match: with ["search match"], or with ["current search
    match"] when the reported match starts at the cursor offset (not when it
    merely contains it); where reported matches overlap, the last one
    reported decides; a character in no reported match keeps its token.  The
    statement is about the offsets [find_all] reports, whichever they are: an
    occurrence of the text that [find_all] does not report is not retagged. *)
Theorem HighlightSearchProcessor_run_matches (cli : CommandLineInterface)
    (buffer : Buffer) (tokens : tokenlist) (state : ISearchState) :
  isearch_state buffer = Some state ->
  let len := length (isearch_text state) in
  let occurrences := find_all (document buffer) (isearch_text state) in
  Forall (fun index => index + len <= length tokens) occurrences ->
  exists tokens' : tokenlist,
    HighlightSearchProcessor_run _ find_all cli buffer tokens
    = Some (tokens', fun i => i)
    /\ length tokens' = length tokens
    /\ tokens'.*2 = tokens.*2
    /\ (forall x,
          token_at tokens' x =
          match last_covering occurrences len x with
          | Some index =>
              if bool_decide (index = cursor_position buffer)
              then Some Token_SearchMatch_Current
              else Some Token_SearchMatch
          | None => token_at tokens x
          end)
    /\ (forall index x,
          index ∈ occurrences -> index <= x < index + len ->
          (forall index', index' ∈ occurrences -> index' <= x < index' + len ->
                          index' = index) ->
          token_at tokens' x =
          Some (if bool_decide (index = cursor_position buffer)
                then Token_SearchMatch_Current else Token_SearchMatch)).
Proof.
  intros Hstate len occurrences Hall.
  destruct (for_each_occurrence (cursor_position buffer) len occurrences tokens Hall)
    as (tokens' & Hrun & Hlen & Hlookup).
  assert (Htoken : forall x,
            token_at tokens' x =
            match last_covering occurrences len x with
            | Some index =>
                if bool_decide (index = cursor_position buffer)
                then Some Token_SearchMatch_Current
                else Some Token_SearchMatch
            | None => token_at tokens x
            end).
  { intros x. unfold token_at. rewrite Hlookup.
    destruct (last_covering occurrences len x) as [index|] eqn:Hlast.
    - apply last_covering_Some in Hlast as [Hin Hc].
      assert (Hx : x < length tokens).
      { rewrite Forall_forall in Hall. specialize (Hall _ Hin). lia. }
      apply lookup_lt_is_Some in Hx as [[token text] ->].
      unfold search_token. by case_bool_decide.
    - by destruct (tokens !! x) as [[token text]|]. }
  exists tokens'. split; [|split; [exact Hlen|split; [|split; [exact Htoken|]]]].
  - unfold HighlightSearchProcessor_run. rewrite Hstate.
    fold len occurrences.
    unfold search_token in Hrun. rewrite Hrun. reflexivity.
  - apply list_eq. intros x. rewrite !list_lookup_fmap, Hlookup.
    by destruct (tokens !! x) as [[token text]|].
  - intros index x Hin Hc Huniq. rewrite Htoken.
    destruct (last_covering occurrences len x) as [index'|] eqn:Hlast.
    + apply last_covering_Some in Hlast as [Hin' Hc'].
      rewrite (Huniq _ Hin' Hc'). by case_bool_decide.
    + by destruct (last_covering_None _ _ _ _ Hlast Hin).
Qed.

(** Without a search state the stream is handed back as it is. *)
Lemma HighlightSearchProcessor_run_inactive (cli : CommandLineInterface)
    (buffer : Buffer) (tokens : tokenlist) :
  isearch_state buffer = None ->
  HighlightSearchProcessor_run _ find_all cli buffer tokens
  = Some (tokens, fun i => i).
Proof. intros Hstate. unfold HighlightSearchProcessor_run. by rewrite Hstate. Qed.

End Search.

(** C6, as stated, fails: in ["abc"] the one match of ["bc"] starts at offset
    1 and contains the cursor offset 2, and it is retagged as a plain search
    match, not as the current one. *)
Lemma HighlightSearchProcessor_run_cursor_inside_match :
  sample_find_all (mkDocument (u "abc") 2) (u "bc") = [1]
  /\ 1 <= cursor_position (mkBuffer (Some (mkISearchState (u "bc")))
                                    (mkDocument (u "abc") 2))
       < 1 + length (u "bc")
  /\ HighlightSearchProcessor_run unit sample_find_all ()
       (mkBuffer (Some (mkISearchState (u "bc"))) (mkDocument (u "abc") 2))
       (spell Token (u "abc"))
     = Some ([(Token, u "a"); (Token_SearchMatch, u "b"); (Token_SearchMatch, u "c")],
             fun i => i)
  /\ Token_SearchMatch <> Token_SearchMatch_Current.
Proof. repeat split; [cbn; lia | cbn; lia | discriminate]. Qed.

Lemma HighlightSearchProcessor_run_matches_witness :
  (exists tokens' : tokenlist,
     HighlightSearchProcessor_run unit sample_find_all ()
       (mkBuffer (Some (mkISearchState (u "bc"))) (mkDocument (u "abcbc") 1))
       (spell Token (u "abcbc"))
     = Some (tokens', fun i => i)
     /\ token_at tokens' 1 = Some Token_SearchMatch_Current
     /\ token_at tokens' 4 = Some Token_SearchMatch)
  /\ (exists tokens' : tokenlist,
        HighlightSearchProcessor_run unit (fun _ _ => [0]) ()
          (mkBuffer (Some (mkISearchState (u "aa"))) (mkDocument (u "aaa") 1))
          (spell Token (u "aaa"))
        = Some (tokens', fun i => i)
        /\ token_at tokens' 0 = Some Token_SearchMatch
        /\ token_at tokens' 1 = Some Token_SearchMatch
        /\ token_at tokens' 2 = Some Token).
Proof.
  split.
  - destruct (HighlightSearchProcessor_run_matches unit sample_find_all ()
                (mkBuffer (Some (mkISearchState (u "bc"))) (mkDocument (u "abcbc") 1))
                (spell Token (u "abcbc")) (mkISearchState (u "bc")) eq_refl)
      as (tokens' & Hrun & _ & _ & Htoken & _).
    { vm_compute. repeat constructor. }
    exists tokens'. split; [exact Hrun|].
    split; [exact (Htoken 1) | exact (Htoken 4)].
  - destruct (HighlightSearchProcessor_run_matches unit (fun _ _ => [0]) ()
                (mkBuffer (Some (mkISearchState (u "aa"))) (mkDocument (u "aaa") 1))
                (spell Token (u "aaa")) (mkISearchState (u "aa")) eq_refl)
      as (tokens' & Hrun & _ & _ & Htoken & _).
    { vm_compute. repeat constructor. }
    exists tokens'. split; [exact Hrun|].
    split; [exact (Htoken 0) | split; [exact (Htoken 1) | exact (Htoken 2)]].
Defined.

(** ** [Screen.write_data]: the index map and wrapping *)

Lemma grid_get_set_eq (default_char : Char.t) (buffer : grid) (y x : Z) (c : Char.t) :
  grid_get default_char (grid_set buffer y x c) y x = c.
Proof. unfold grid_get, grid_set. rewrite lookup_insert_eq. cbn. by rewrite lookup_insert_eq. Qed.

Lemma grid_get_set_ne (default_char : Char.t) (buffer : grid) (y x y' x' : Z) (c : Char.t) :
  (y', x') <> (y, x) ->
  grid_get default_char (grid_set buffer y x c) y' x' = grid_get default_char buffer y' x'.
Proof.
  intros Hne. unfold grid_get, grid_set.
  destruct (decide (y' = y)) as [->|Hy].
  - rewrite lookup_insert_eq. cbn.
    rewrite lookup_insert_ne by congruence.
    destruct (buffer !! y) as [row|]; [reflexivity|]. cbn. by rewrite lookup_empty.
  - by rewrite lookup_insert_ne.
Qed.

Section ScreenFacts.
Variable get_cwidth : ustring -> Z.

Lemma write_chars_explode max_x margin (data : tokenlist) (st : Screen.locals) :
  fold_left (fun st '(token, text) =>
               fold_left (Screen.write_char get_cwidth max_x margin token) text st)
            data st
  = write_chars get_cwidth max_x margin (explode data) st.
Proof.
  revert st. induction data as [|[token text] data IH]; intros st; [reflexivity|].
  rewrite explode_cons. unfold write_chars. rewrite fold_left_app.
  cbn [fold_left]. rewrite IH. unfold write_chars. f_equal.
  generalize st. induction text as [|c text IHt]; intros st'; [reflexivity|].
  cbn. apply IHt.
Qed.

Lemma write_chars_snoc max_x margin chars token char st :
  write_chars get_cwidth max_x margin (chars ++ [(token, char)]) st
  = Screen.write_char get_cwidth max_x margin token (write_chars get_cwidth max_x margin chars st) char.
Proof. unfold write_chars. by rewrite fold_left_app. Qed.

Lemma margin_char_frame default_char y token buffer x c buffer' x' :
  Screen.margin_char get_cwidth y token (buffer, x) c = (buffer', x') ->
  forall yy xx, yy <> y ->
    grid_get default_char buffer' yy xx = grid_get default_char buffer yy xx.
Proof.
  unfold Screen.margin_char. intros [= <- <-] yy xx Hne.
  destruct (1 <? _)%Z; rewrite !grid_get_set_ne by congruence; reflexivity.
Qed.

Lemma do_line_feed_frame default_char margin y buffer s2i x number buffer' s2i' x' :
  Screen.do_line_feed get_cwidth margin y buffer s2i x number = (buffer', s2i', x') ->
  forall yy xx, yy <> y ->
    grid_get default_char buffer' yy xx = grid_get default_char buffer yy xx.
Proof.
  unfold Screen.do_line_feed. destruct margin as [margin|]; [|by intros [= <- <- <-]].
  destruct (fold_left _ _ _) as [buffer1 x1] eqn:Hfold.
  intros [= <- <- <-] yy xx Hne.
  revert buffer x Hfold. generalize (margin number) as tokens.
  induction tokens as [|[token text] tokens IH]; intros buffer x Hfold.
  { by injection Hfold as <- <-. }
  cbn [fold_left] in Hfold.
  destruct (fold_left (Screen.margin_char get_cwidth y token) text (buffer, x))
    as [buffer2 x2] eqn:Htext.
  rewrite (IH _ _ Hfold). clear IH Hfold.
  revert buffer x Htext. induction text as [|c text IHt]; intros buffer x Htext.
  { by injection Htext as <- <-. }
  cbn [fold_left] in Htext.
  destruct (Screen.margin_char get_cwidth y token (buffer, x) c) as [buffer3 x3] eqn:Hc.
  rewrite (IHt _ _ Htext). by eapply margin_char_frame.
Qed.

Lemma do_line_feed_no_margin y buffer s2i x number :
  Screen.do_line_feed get_cwidth None y buffer s2i x number
  = (buffer, match number with Some n => <[y := n]> s2i | None => s2i end, x).
Proof. reflexivity. Qed.

End ScreenFacts.

Section ScreenStep.
Variable get_cwidth : ustring -> Z.
Variable default_char : Char.t.

Lemma write_char_step max_x margin token st c :
  let st' := Screen.write_char get_cwidth max_x margin token st c in
  let char_obj := _CHAR_CACHE get_cwidth [c] token in
  exists x2 y2 : Z,
    Screen.indexes_to_pos st' = <[Screen.index st := (x2, y2)]> (Screen.indexes_to_pos st)
    /\ Screen.index st' = S (Screen.index st)
    /\ ((y2 = Screen.y st /\ (Screen.requires_line_feed st = false -> x2 = Screen.x st))
        \/ (y2 = (Screen.y st + 1)%Z /\ c <> newline))
    /\ (forall yy xx, behind st yy xx ->
          grid_get default_char (Screen.buffer st') yy xx
          = grid_get default_char (Screen.buffer st) yy xx)
    /\ (if bool_decide (c = newline)
        then Screen.y st' = (y2 + 1)%Z /\ Screen.requires_line_feed st' = true
        else Screen.x st' = (x2 + Char.width char_obj)%Z
             /\ Screen.y st' = y2
             /\ Screen.requires_line_feed st' = false
             /\ grid_get default_char (Screen.buffer st') y2 x2 = char_obj).
Proof.
  destruct st as [x y index line_number rlf itp buffer s2i].
  cbn zeta. unfold Screen.write_char, behind. cbn [Screen.x Screen.y Screen.index
    Screen.requires_line_feed Screen.indexes_to_pos Screen.buffer].
  set (char_obj := _CHAR_CACHE get_cwidth [c] token).
  (* the pending line feed *)
  assert (Hfeed : exists buffer1 s2i1 x1,
            (if rlf
             then let '(buffer, s2i, x) :=
                    Screen.do_line_feed get_cwidth margin y buffer s2i x (Some line_number) in
                  (buffer, s2i, x, false)
             else (buffer, s2i, x, rlf)) = (buffer1, s2i1, x1, false)
            /\ (rlf = false -> x1 = x /\ buffer1 = buffer)
            /\ (forall yy xx, yy <> y ->
                  grid_get default_char buffer1 yy xx = grid_get default_char buffer yy xx)).
  { destruct rlf.
    - destruct (Screen.do_line_feed _ _ _ _ _ _ _) as [[buffer1 s2i1] x1] eqn:Hlf.
      exists buffer1, s2i1, x1. split; [reflexivity|]. split; [discriminate|].
      by eapply do_line_feed_frame.
    - exists buffer, s2i, x. by repeat split. }
  destruct Hfeed as (buffer1 & s2i1 & x1 & -> & Hx1 & Hframe1).
  (* the soft wrap *)
  destruct ((max_x <? x1 + Char.width char_obj)%Z && negb (bool_decide (c = newline)))
    eqn:Hwrap.
  - apply andb_prop in Hwrap as [_ Hnl]. apply negb_true_iff in Hnl.
    rewrite Hnl. apply bool_decide_eq_false in Hnl.
    destruct (Screen.do_line_feed _ _ _ _ _ _ _) as [[buffer2 s2i2] x2] eqn:Hlf.
    exists x2, (y + 1)%Z. cbn.
    split; [reflexivity|]. split; [lia|]. split; [by right|]. split.
    + intros yy xx Hbehind.
      assert (Hyy : (yy <= y)%Z) by (destruct Hbehind as [?|[? _]]; lia).
      assert (Hrow : forall b, grid_get default_char
                 (if (1 <? Char.width char_obj)%Z
                  then grid_set (grid_set b (y + 1) x2 char_obj) (y + 1) (x2 + 1)
                                (Char.__init__ get_cwidth [0%N] Token)
                  else grid_set b (y + 1) x2 char_obj) yy xx
               = grid_get default_char b yy xx).
      { intros b. destruct (1 <? _)%Z; rewrite !grid_get_set_ne; try reflexivity;
          intros [=]; lia. }
      rewrite Hrow.
      rewrite (do_line_feed_frame _ _ _ _ _ _ _ _ _ _ _ Hlf) by lia.
      destruct Hbehind as [Hlt|(-> & Hxx & ->)].
      * apply Hframe1. lia.
      * by destruct (Hx1 eq_refl) as [_ ->].
    + repeat split.
      destruct (1 <? _)%Z.
      * rewrite grid_get_set_ne by (intros [=]; lia). apply grid_get_set_eq.
      * apply grid_get_set_eq.
  - exists x1, y.
    split; [by destruct (bool_decide (c = newline))|].
    split; [destruct (bool_decide (c = newline)); cbn; lia|].
    split; [left; split; [reflexivity | by intros H; destruct (Hx1 H)]|].
    split.
    + intros yy xx Hbehind.
      destruct (bool_decide (c = newline)); cbn.
      * destruct Hbehind as [Hlt|(-> & Hxx & ->)].
        -- apply Hframe1. lia.
        -- by destruct (Hx1 eq_refl) as [_ ->].
      * assert (Hrow : forall b, (yy, xx) <> (y, x1) -> (yy, xx) <> (y, (x1 + 1)%Z) ->
                  grid_get default_char
                    (if (1 <? Char.width char_obj)%Z
                     then grid_set (grid_set b y x1 char_obj) y (x1 + 1)
                                   (Char.__init__ get_cwidth [0%N] Token)
                     else grid_set b y x1 char_obj) yy xx
                  = grid_get default_char b yy xx).
        { intros b H1 H2. destruct (1 <? _)%Z; by rewrite !grid_get_set_ne. }
        destruct Hbehind as [Hlt|(-> & Hxx & ->)].
        -- rewrite Hrow by (intros [=]; lia). apply Hframe1. lia.
        -- destruct (Hx1 eq_refl) as [-> ->].
           apply Hrow; intros [=]; lia.
    + case_bool_decide; cbn; [by split|].
      repeat split.
      destruct (1 <? _)%Z.
      * rewrite grid_get_set_ne by (intros [=]; lia). apply grid_get_set_eq.
      * apply grid_get_set_eq.
Qed.

End ScreenStep.

Section ScreenIndexMap.
Variable get_cwidth : ustring -> Z.
Variable default_char : Char.t.

Lemma index_map_inv_step max_x margin chars st token c :
  index_map_inv get_cwidth default_char chars st ->
  index_map_inv get_cwidth default_char (chars ++ [(token, c)])
                (Screen.write_char get_cwidth max_x margin token st c).
Proof.
  intros [Hindex Hkeys Hcell Hlast Hnext].
  destruct (write_char_step get_cwidth default_char max_x margin token st c)
    as (x2 & y2 & Hitp & Hindex' & Hpos & Hframe & Hafter).
  set (st' := Screen.write_char get_cwidth max_x margin token st c) in *.
  rewrite Hindex in Hitp.
  assert (Hbehind :
            (c <> newline -> (1 <= Char.width (_CHAR_CACHE get_cwidth [c] token))%Z) ->
            forall yy xx, behind st yy xx -> behind st' yy xx).
  { intros Hwidth yy xx Hb. unfold behind in *.
    destruct (bool_decide_reflect (c = newline)) as [Hnl|Hnl].
    - destruct Hafter as [Hy' _]. left.
      destruct Hpos as [[-> _]|[_ ?]]; [|done].
      destruct Hb as [?|[-> _]]; lia.
    - destruct Hafter as (Hx' & Hy' & Hrlf' & _). specialize (Hwidth Hnl).
      destruct Hb as [Hlt|(-> & Hxx & Hrlf)].
      + left. destruct Hpos as [[-> _]|[-> _]]; lia.
      + destruct Hpos as [[-> Hx2]|[-> _]]; [|left; lia].
        right. rewrite (Hx2 Hrlf) in Hx'. repeat split; [done | lia | done]. }
  assert (Hnew : Screen.indexes_to_pos st' !! length chars = Some (x2, y2)).
  { rewrite Hitp. apply lookup_insert_eq. }
  assert (Hold : forall i, i < length chars ->
            Screen.indexes_to_pos st' !! i = Screen.indexes_to_pos st !! i).
  { intros i Hi. rewrite Hitp. apply lookup_insert_ne. lia. }
  split.
  - rewrite Hindex', Hindex, length_app. cbn. lia.
  - intros i. rewrite length_app. cbn.
    destruct (decide (i = length chars)) as [->|Hne].
    + rewrite Hnew. split; [lia | eauto].
    + rewrite Hitp, lookup_insert_ne by done. rewrite Hkeys. lia.
  - intros Hwidths i token' c' xi yi Hi Hnl Hpi.
    assert (Hwidth : c <> newline ->
              (1 <= Char.width (_CHAR_CACHE get_cwidth [c] token))%Z).
    { apply Hwidths. apply elem_of_app. right. apply list_elem_of_here. }
    assert (Hwidths' : forall token c, (token, c) ∈ chars -> c <> newline ->
              (1 <= Char.width (_CHAR_CACHE get_cwidth [c] token))%Z).
    { intros token0 c0 Hin. apply Hwidths. apply elem_of_app. by left. }
    destruct (decide (i < length chars)) as [Hlt|Hge].
    + rewrite lookup_app_l in Hi by done. rewrite Hold in Hpi by done.
      destruct (Hcell Hwidths' _ _ _ _ _ Hi Hnl Hpi) as [Hget Hb].
      split; [by rewrite Hframe | by apply Hbehind].
    + assert (i = length chars) as ->.
      { apply lookup_lt_Some in Hi. rewrite length_app in Hi. cbn in Hi. lia. }
      rewrite list_lookup_middle in Hi by done. injection Hi as <- <-.
      rewrite Hnew in Hpi. injection Hpi as <- <-.
      rewrite bool_decide_eq_false_2 in Hafter by done.
      destruct Hafter as (Hx' & Hy' & Hrlf' & Hget).
      split; [exact Hget|]. right. specialize (Hwidth Hnl).
      repeat split; [done | lia | done].
  - intros i token' c' xi yi Hi Hlen Hpi.
    rewrite length_app in Hlen. cbn in Hlen.
    assert (i = length chars) as -> by lia.
    rewrite list_lookup_middle in Hi by done. injection Hi as <- <-.
    rewrite Hnew in Hpi. injection Hpi as <- <-.
    case_bool_decide; [by destruct Hafter | by destruct Hafter as (? & ? & ? & _)].
  - intros i token1 c1 token2 c2 xi yi xj yj Hi Hj Hpi Hpj.
    assert (Hjlt : S i < length chars + 1).
    { apply lookup_lt_Some in Hj. by rewrite length_app in Hj. }
    rewrite lookup_app_l in Hi by lia. rewrite Hold in Hpi by lia.
    destruct (decide (S i < length chars)) as [Hlt|Hge].
    + rewrite lookup_app_l in Hj by done. rewrite Hold in Hpj by done.
      by eapply Hnext.
    + assert (S i = length chars) as Hlen by lia.
      rewrite Hlen in Hj, Hpj.
      rewrite list_lookup_middle in Hj by done. injection Hj as <- <-.
      rewrite Hnew in Hpj. injection Hpj as <- <-.
      specialize (Hlast _ _ _ _ _ Hi Hlen Hpi).
      split.
      * intros Hnl. rewrite bool_decide_eq_true_2 in Hlast by done.
        destruct Hpos as [[-> _]|[-> _]]; lia.
      * intros Hnl ->. rewrite bool_decide_eq_false_2 in Hlast by done.
        destruct Hlast as (Hx & Hy & Hrlf).
        destruct Hpos as [[-> Hx2]|[_ ?]]; [|done].
        by rewrite (Hx2 Hrlf).
Qed.

Lemma index_map_inv_init x y line_number rlf buffer s2i :
  index_map_inv get_cwidth default_char []
                (Screen.mkLocals x y 0 line_number rlf ∅ buffer s2i).
Proof.
  split; cbn.
  - reflexivity.
  - intros i. rewrite lookup_empty. split; [by intros [? ?] | lia].
  - intros _ i ? ? ? ? [=].
  - intros i ? ? ? ? [=].
  - intros i ? ? ? ? ? ? ? ? [=].
Qed.

Lemma index_map_inv_write_chars max_x margin chars st0 :
  index_map_inv get_cwidth default_char [] st0 ->
  index_map_inv get_cwidth default_char chars
                (write_chars get_cwidth max_x margin chars st0).
Proof.
  intros Hinit. induction chars as [|[token c] chars IH] using rev_ind.
  { exact Hinit. }
  rewrite write_chars_snoc. by apply index_map_inv_step.
Qed.

End ScreenIndexMap.

Section ScreenCells.
Variable get_cwidth : ustring -> Z.
Variable default_char : Char.t.




End ScreenCells.

Section ScreenWrap.
Variable get_cwidth : ustring -> Z.
Variable default_char : Char.t.

Lemma write_char_plain (W : Z) token st c :
  c <> newline -> Char.width (_CHAR_CACHE get_cwidth [c] token) = 1%Z ->
  Screen.write_char get_cwidth W None token st c =
  let wrap := (W <? Screen.x st + 1)%Z in
  let x2 := if wrap then 0%Z else Screen.x st in
  let y2 := if wrap then (Screen.y st + 1)%Z else Screen.y st in
  Screen.mkLocals (x2 + 1)%Z y2 (Screen.index st + 1) (Screen.line_number st) false
    (<[Screen.index st := (x2, y2)]> (Screen.indexes_to_pos st))
    (grid_set (Screen.buffer st) y2 x2 (_CHAR_CACHE get_cwidth [c] token))
    (if Screen.requires_line_feed st
     then <[Screen.y st := Screen.line_number st]> (Screen.s2i st)
     else Screen.s2i st).
Proof.
  intros Hnl Hw. destruct st as [x y index line_number rlf itp buffer s2i].
  unfold Screen.write_char. cbn [Screen.x Screen.y Screen.index Screen.line_number
    Screen.requires_line_feed Screen.indexes_to_pos Screen.buffer Screen.s2i].
  rewrite Hw, !bool_decide_eq_false_2 by done.
  destruct rlf; rewrite ?do_line_feed_no_margin; cbn [negb andb];
    rewrite andb_true_r; destruct (W <? x + 1)%Z;
    rewrite ?do_line_feed_no_margin; reflexivity.
Qed.

Lemma wrap_inv_step (W : Z) buffer0 chars st token c :
  (1 <= W)%Z ->
  wrap_inv get_cwidth default_char W buffer0 chars st ->
  c <> newline -> Char.width (_CHAR_CACHE get_cwidth [c] token) = 1%Z ->
  wrap_inv get_cwidth default_char W buffer0 (chars ++ [(token, c)])
           (Screen.write_char get_cwidth W None token st c).
Proof.
  intros HW [Hindex (Hx & Hy & Hk & Hx1) Hpos Hcell Hframe] Hnl Hw.
  rewrite write_char_plain by done. cbn zeta.
  set (x2 := if (W <? Screen.x st + 1)%Z then 0%Z else Screen.x st).
  set (y2 := if (W <? Screen.x st + 1)%Z then (Screen.y st + 1)%Z else Screen.y st).
  assert (Hhead : (0 <= x2 < W)%Z /\ (0 <= y2)%Z
                  /\ Z.of_nat (length chars) = (y2 * W + x2)%Z).
  { unfold x2, y2. destruct (Z.ltb_spec W (Screen.x st + 1)); lia. }
  destruct Hhead as (Hx2 & Hy2 & Hk2).
  assert (Huniq : forall yy xx, (0 <= xx < W)%Z ->
            (yy * W + xx)%Z = Z.of_nat (length chars) -> yy = y2 /\ xx = x2).
  { intros yy xx Hxx Heq.
    assert (yy = y2) by nia. subst yy. split; [reflexivity | lia]. }
  split; cbn [Screen.x Screen.y Screen.index Screen.indexes_to_pos Screen.buffer];
    rewrite ?length_app; cbn [length].
  - lia.
  - repeat split; try lia.
  - intros i. rewrite Hindex.
    destruct (decide (i = length chars)) as [->|Hne].
    + rewrite lookup_insert_eq, decide_True by lia. do 2 f_equal.
      * apply (Z.mod_unique _ _ y2); lia.
      * apply (Z.div_unique _ _ _ x2); lia.
    + rewrite lookup_insert_ne, Hpos by done.
      destruct (decide (i < length chars)).
      * by rewrite decide_True by lia.
      * by rewrite decide_False by lia.
  - intros yy xx (Hxx & Hyy & Hlt).
    destruct (decide ((yy * W + xx)%Z = Z.of_nat (length chars))) as [Heq|Hne].
    + destruct (Huniq _ _ Hxx Heq) as [-> ->].
      exists token, c. rewrite <- Hk2, Nat2Z.id.
      split; [by apply list_lookup_middle | apply grid_get_set_eq].
    + destruct (Hcell yy xx) as (token' & c' & Hlook & Hget).
      { repeat split; lia. }
      exists token', c'. split.
      * rewrite lookup_app_l; [exact Hlook|]. by eapply lookup_lt_Some.
      * rewrite grid_get_set_ne; [exact Hget|]. intros [= -> ->]. lia.
  - intros yy xx Hout.
    rewrite grid_get_set_ne.
    + apply Hframe. intros (Hxx & Hyy & Hlt). apply Hout. repeat split; lia.
    + intros [= -> ->]. apply Hout. repeat split; lia.
Qed.

Lemma wrap_inv_init (W : Z) line_number rlf buffer0 s2i :
  (1 <= W)%Z ->
  wrap_inv get_cwidth default_char W buffer0 []
           (Screen.mkLocals 0%Z 0%Z 0 line_number rlf ∅ buffer0 s2i).
Proof.
  intros HW. split; cbn.
  - reflexivity.
  - repeat split; lia.
  - intros i. rewrite lookup_empty. by rewrite decide_False by lia.
  - intros yy xx (? & ? & ?). nia.
  - reflexivity.
Qed.

Lemma wrap_inv_write_chars (W : Z) buffer0 chars st0 :
  (1 <= W)%Z ->
  wrap_inv get_cwidth default_char W buffer0 [] st0 ->
  plain_chars get_cwidth chars ->
  wrap_inv get_cwidth default_char W buffer0 chars
           (write_chars get_cwidth W None chars st0).
Proof.
  intros HW Hinit. induction chars as [|[token c] chars IH] using rev_ind; intros Hplain.
  { exact Hinit. }
  rewrite write_chars_snoc.
  destruct (Hplain token c) as [Hnl Hw].
  { apply elem_of_app. right. apply list_elem_of_here. }
  apply wrap_inv_step; [done| |done|done].
  apply IH. intros token' c' Hin. apply Hplain. apply elem_of_app. by left.
Qed.

End ScreenWrap.

Section ScreenTheorems.
Variable get_cwidth : ustring -> Z.

Lemma write_data_unfold (self : Screen.t) (data : tokenlist) (width : Z)
    (margin : option margin_fn) :
  let st := write_chars get_cwidth width margin (explode data) (locals0 self) in
  Screen._buffer (Screen.write_data get_cwidth self data width margin).1 = Screen.buffer st
  /\ Screen.default_char (Screen.write_data get_cwidth self data width margin).1
     = Screen.default_char self
  /\ Screen.current_height (Screen.write_data get_cwidth self data width margin).1
     = Z.max (Screen.current_height self) (Screen.y st + 1)
  /\ (Screen.write_data get_cwidth self data width margin).2 = Screen.indexes_to_pos st.
Proof.
  unfold Screen.write_data. cbn [fst snd Screen._buffer Screen.default_char
    Screen.current_height]. rewrite Z.add_0_l, write_chars_explode. by repeat split.
Qed.


(** C3: for [N >= 1] characters that are one column wide and not newlines,
    a width [W >= 1] and no margin function, offset [i] is placed at column
    [i mod W] of row [i / W]; the rows that receive a character are exactly
    the [ceil(N/W)] rows [0 .. ceil(N/W) - 1]; every column used is below
    [W]; the grid holds the characters at those positions and is unchanged
    everywhere else; and the used height becomes the maximum of what it was
    and [ceil(N/W)]. *)
Theorem write_data_wraps_plain (self : Screen.t) (data : tokenlist) (W : Z) :
  let chars := explode data in
  let N := length chars in
  1 <= N -> (1 <= W)%Z -> plain_chars get_cwidth chars ->
  let self' := (Screen.write_data get_cwidth self data W None).1 in
  let indexes_to_pos := (Screen.write_data get_cwidth self data W None).2 in
  let rows := ((Z.of_nat N + W - 1) / W)%Z in
  (forall i, indexes_to_pos !! i =
             if decide (i < N)
             then Some ((Z.of_nat i mod W)%Z, (Z.of_nat i / W)%Z) else None)
  /\ (forall y, (exists i x, indexes_to_pos !! i = Some (x, y)) <-> (0 <= y < rows)%Z)
  /\ (forall i x y, indexes_to_pos !! i = Some (x, y) -> (0 <= x < W)%Z)
  /\ (forall i token c,
        chars !! i = Some (token, c) ->
        grid_get (Screen.default_char self') (Screen._buffer self')
                 (Z.of_nat i / W) (Z.of_nat i mod W)
        = _CHAR_CACHE get_cwidth [c] token)
  /\ (forall y x,
        ~ in_block W N y x ->
        grid_get (Screen.default_char self') (Screen._buffer self') y x
        = grid_get (Screen.default_char self) (Screen._buffer self) y x)
  /\ Screen.current_height self' = Z.max (Screen.current_height self) rows.
Proof.
  intros chars N HN HW Hplain self' indexes_to_pos rows.
  subst self' indexes_to_pos.
  destruct (write_data_unfold self data W None) as (-> & -> & -> & ->).
  destruct (wrap_inv_write_chars get_cwidth (Screen.default_char self) W
              (Screen._buffer self) chars (locals0 self) HW
              (wrap_inv_init _ _ _ _ _ _ _ HW) Hplain)
    as [_ (Hx & Hy & Hk & Hx1) Hpos Hcell Hframe].
  fold chars in Hpos, Hcell, Hframe, Hk, Hx1 |- *. fold N in Hpos, Hcell, Hframe, Hk, Hx1.
  assert (Hrows : rows = ((Z.of_nat N - 1) / W + 1)%Z).
  { unfold rows. rewrite <- (Z.div_add _ 1 W) by lia. f_equal. lia. }
  split; [exact Hpos|]. split; [|split; [|split; [|split]]].
  - intros y. split.
    + intros (i & x & Hi). rewrite Hpos in Hi.
      destruct (decide (i < N)) as [Hlt|]; [|discriminate].
      injection Hi as _ <-. rewrite Hrows. split.
      * apply Z.div_pos; lia.
      * assert ((Z.of_nat i / W <= (Z.of_nat N - 1) / W)%Z)
          by (apply Z.div_le_mono; lia).
        lia.
    + intros [Hy0 Hylt]. exists (Z.to_nat (y * W)), 0%Z.
      assert (Hmul : (W * ((Z.of_nat N - 1) / W) <= Z.of_nat N - 1)%Z)
        by (apply Z.mul_div_le; lia).
      rewrite Hpos, decide_True by nia.
      rewrite Z2Nat.id by nia.
      by rewrite Z.mod_mul, Z.div_mul by lia.
  - intros i x y Hi. rewrite Hpos in Hi.
    destruct (decide (i < N)); [|discriminate]. injection Hi as <- _.
    apply Z.mod_pos_bound. lia.
  - intros i token c Hi.
    assert (Hlt : i < N) by (by eapply lookup_lt_Some).
    assert (Hdm : Z.of_nat i = (Z.of_nat i / W * W + Z.of_nat i mod W)%Z).
    { rewrite Z.mul_comm. apply Z.div_mod. lia. }
    destruct (Hcell (Z.of_nat i / W)%Z (Z.of_nat i mod W)%Z)
      as (token' & c' & Hlook & Hget).
    { repeat split; [apply Z.mod_pos_bound; lia.. | apply Z.div_pos; lia | lia]. }
    rewrite <- Hdm, Nat2Z.id, Hi in Hlook. by injection Hlook as <- <-.
  - exact Hframe.
  - f_equal. rewrite Hrows. f_equal.
    apply Z.div_unique with
      (r := (Screen.x (write_chars get_cwidth W None chars (locals0 self)) - 1)%Z).
    + specialize (Hx1 ltac:(lia)). lia.
    + lia.
Qed.

End ScreenTheorems.


Lemma sample_plain_chars :
  plain_chars sample_cwidth (explode [(Token, u "hello")]).
Proof.
  intros token c Hin. cbn in Hin.
  repeat (apply elem_of_cons in Hin as [[= -> ->]|Hin];
          [split; [discriminate | reflexivity]|]).
  by apply elem_of_nil in Hin.
Defined.


Lemma write_data_wraps_plain_witness :
  (Screen.write_data sample_cwidth (Screen.__init__ sample_cwidth 80%Z None)
     [(Token, u "hello")] 2%Z None).2 !! 4 = Some (0%Z, 2%Z)
  /\ Screen.current_height
       (Screen.write_data sample_cwidth (Screen.__init__ sample_cwidth 80%Z None)
          [(Token, u "hello")] 2%Z None).1 = 3%Z.
Proof.
  destruct (write_data_wraps_plain sample_cwidth
              (Screen.__init__ sample_cwidth 80%Z None) [(Token, u "hello")] 2%Z
              ltac:(cbn; lia) ltac:(lia) sample_plain_chars)
    as (Hpos & _ & _ & _ & _ & Hheight).
  split; [exact (Hpos 4) | exact Hheight].
Defined.

(** ** Further properties of the screen and the processors *)

Lemma display_mappings_values (s g : ustring) :
  Char.display_mappings !! s = Some g -> Char.display_mappings !! g = None.
Proof.
  unfold Char.display_mappings at 1. intros H.
  apply elem_of_list_to_map_2 in H.
  repeat (apply elem_of_cons in H as [[= -> ->]|H]; [reflexivity|]).
  by apply elem_of_nil in H.
Qed.

Lemma display_idempotent (s : ustring) :
  Char.display (Char.display s) = Char.display s.
Proof.
  unfold Char.display.
  destruct (Char.display_mappings !! s) as [g|] eqn:Hs;
    cbn [default from_option]; unfold id.
  - by rewrite (display_mappings_values _ _ Hs).
  - by rewrite Hs.
Qed.

Section CharMore.
Variable get_cwidth : ustring -> Z.

(** X2: building a cell from the glyph of a cell keeps the glyph and the
    width: no caret glyph is itself a key of the display table, so the
    substitution is not applied twice. *)
Theorem Char_init_from_glyph (char : ustring) (token token' : TokenType) :
  Char.__init__ get_cwidth (Char.char (Char.__init__ get_cwidth char token)) token'
  = {| Char.char := Char.char (Char.__init__ get_cwidth char token);
       Char.token := token';
       Char.width := Char.width (Char.__init__ get_cwidth char token) |}.
Proof.
  unfold Char.__init__. cbn [Char.char Char.width].
  by rewrite display_idempotent.
Qed.

(** X3: after a lookup the cache holds the returned cell under the key; a
    second lookup of the key returns the same cell and leaves the cache as it
    is; the other keys are untouched and nothing is evicted; and on a miss
    the cell is the one built from the key. *)
Theorem CharCache_getitem_memo (cache : CharCache) (key : ustring * TokenType) :
  let c := (CharCache_getitem get_cwidth cache key).1 in
  let cache' := (CharCache_getitem get_cwidth cache key).2 in
  cache' !! key = Some c
  /\ CharCache_getitem get_cwidth cache' key = (c, cache')
  /\ (forall key', key' <> key -> cache' !! key' = cache !! key')
  /\ (forall key' c', cache !! key' = Some c' -> cache' !! key' = Some c')
  /\ (cache !! key = None -> c = Char.__init__ get_cwidth key.1 key.2).
Proof.
  unfold CharCache_getitem.
  destruct (cache !! key) as [c|] eqn:Hkey; cbn [fst snd].
  - rewrite Hkey. repeat split; try done.
  - rewrite lookup_insert_eq. repeat split.
    + intros key' Hne. by rewrite lookup_insert_ne.
    + intros key' c' Hc'. rewrite lookup_insert_ne; [done|]. congruence.
Qed.

Lemma replace_all_tokens_lookup (self : Screen.t) (token : TokenType) (y x : Z) :
  grid_lookup (Screen._buffer (Screen.replace_all_tokens get_cwidth self token)) y x
  = (fun c => _CHAR_CACHE get_cwidth (Char.char c) token)
      <$> grid_lookup (Screen._buffer self) y x.
Proof.
  unfold grid_lookup, Screen.replace_all_tokens. cbn [Screen._buffer].
  rewrite lookup_fmap. destruct (Screen._buffer self !! y) as [row|]; [|reflexivity].
  cbn. by rewrite lookup_fmap.
Qed.

Lemma grid_get_lookup (default_char : Char.t) (buffer : grid) (y x : Z) :
  grid_get default_char buffer y x = default default_char (grid_lookup buffer y x).
Proof. reflexivity. Qed.

(** X4: [replace_all_tokens] gives every stored cell the new token and the
    glyph and width rebuilt from its glyph, which for a cell built by [Char]
    are the glyph and width it had; a position nothing was written to stays
    unwritten and still reads as the default character, whose token is not
    replaced; no other field of the screen changes. *)
Theorem replace_all_tokens_cells (self : Screen.t) (token : TokenType) (y x : Z) :
  let self' := Screen.replace_all_tokens get_cwidth self token in
  (forall c, grid_lookup (Screen._buffer self) y x = Some c ->
     grid_get (Screen.default_char self') (Screen._buffer self') y x
     = {| Char.char := Char.display (Char.char c); Char.token := token;
          Char.width := get_cwidth (Char.display (Char.char c)) |})
  /\ (forall char token0,
        grid_lookup (Screen._buffer self) y x
        = Some (Char.__init__ get_cwidth char token0) ->
        grid_get (Screen.default_char self') (Screen._buffer self') y x
        = {| Char.char := Char.char (Char.__init__ get_cwidth char token0);
             Char.token := token;
             Char.width := Char.width (Char.__init__ get_cwidth char token0) |})
  /\ (grid_lookup (Screen._buffer self) y x = None ->
      grid_lookup (Screen._buffer self') y x = None
      /\ grid_get (Screen.default_char self') (Screen._buffer self') y x
         = Screen.default_char self)
  /\ Screen.width self' = Screen.width self
  /\ Screen.cursor_position self' = Screen.cursor_position self
  /\ Screen.menu_position self' = Screen.menu_position self
  /\ Screen.current_height self' = Screen.current_height self
  /\ Screen.screen_line_to_input_line self' = Screen.screen_line_to_input_line self.
Proof.
  intros self'. subst self'.
  split; [|split; [|split; [|by repeat split]]].
  - intros c Hc. rewrite grid_get_lookup, replace_all_tokens_lookup, Hc. reflexivity.
  - intros char token0 Hc.
    rewrite grid_get_lookup, replace_all_tokens_lookup, Hc.
    cbn [fmap option_fmap option_map default].
    unfold _CHAR_CACHE, Char.__init__. cbn [Char.char Char.width].
    by rewrite display_idempotent.
  - intros Hnone. split.
    + rewrite replace_all_tokens_lookup, Hnone. reflexivity.
    + rewrite grid_get_lookup, replace_all_tokens_lookup, Hnone. reflexivity.
Qed.

(** X5: replacing the tokens twice is replacing them with the second
    token; in particular the operation is idempotent. *)
Theorem replace_all_tokens_twice (self : Screen.t) (token1 token2 : TokenType) :
  Screen.replace_all_tokens get_cwidth
    (Screen.replace_all_tokens get_cwidth self token1) token2
  = Screen.replace_all_tokens get_cwidth self token2.
Proof.
  unfold Screen.replace_all_tokens. cbn [Screen._buffer Screen.default_char
    Screen.width Screen.cursor_position Screen.menu_position Screen.current_height
    Screen.screen_line_to_input_line].
  f_equal. rewrite <- map_fmap_compose. apply map_fmap_ext. intros y row _.
  cbn. rewrite <- map_fmap_compose. apply map_fmap_ext. intros x c _.
  cbn. unfold _CHAR_CACHE, Char.__init__. cbn [Char.char].
  by rewrite display_idempotent.
Qed.

End CharMore.

Section ScreenMore.
Variable get_cwidth : ustring -> Z.

(** X6: a stream without characters (no fragment, or empty fragments only)
    writes nothing: the grid and the line mapping are unchanged, the margin
    function is not consulted, the returned map is empty and the height
    becomes the maximum of what it was and 1. *)
Theorem write_data_no_chars (self : Screen.t) (data : tokenlist) (width : Z)
    (margin : option margin_fn) :
  explode data = [] ->
  Screen.write_data get_cwidth self data width margin
  = ({| Screen._buffer := Screen._buffer self;
        Screen.default_char := Screen.default_char self;
        Screen.width := Screen.width self;
        Screen.cursor_position := Screen.cursor_position self;
        Screen.menu_position := Screen.menu_position self;
        Screen.current_height := Z.max (Screen.current_height self) 1;
        Screen.screen_line_to_input_line := Screen.screen_line_to_input_line self |},
     ∅).
Proof.
  intros Hempty. unfold Screen.write_data.
  rewrite Z.add_0_l, write_chars_explode, Hempty. reflexivity.
Qed.

Lemma rows_inv_step max_x margin chars st token c :
  (0 <= Screen.y st)%Z ->
  rows_inv chars st ->
  rows_inv (chars ++ [(token, c)])
           (Screen.write_char get_cwidth max_x margin token st c)
  /\ (0 <= Screen.y (Screen.write_char get_cwidth max_x margin token st c))%Z.
Proof.
  intros Hy [Hindex Hkeys Hbound Hmono].
  destruct (write_char_step get_cwidth (Screen.default_char (Screen.__init__ get_cwidth 0%Z None))
              max_x margin token st c)
    as (x2 & y2 & Hitp & Hindex' & Hpos & _ & Hafter).
  set (st' := Screen.write_char get_cwidth max_x margin token st c) in *.
  rewrite Hindex in Hitp.
  assert (Hy2 : (Screen.y st <= y2 <= Screen.y st')%Z).
  { destruct (bool_decide (c = newline)).
    - destruct Hafter as [-> _]. destruct Hpos as [[-> _]|[-> _]]; lia.
    - destruct Hafter as (_ & -> & _). destruct Hpos as [[-> _]|[-> _]]; lia. }
  split; [|lia]. split.
  - rewrite Hindex', Hindex, length_app. cbn. lia.
  - intros i. rewrite Hitp, length_app. cbn.
    destruct (decide (i = length chars)) as [->|Hne]; [lia|].
    rewrite lookup_insert_ne by done. intros Hi. specialize (Hkeys _ Hi). lia.
  - intros i x y. rewrite Hitp.
    destruct (decide (i = length chars)) as [->|Hne].
    + rewrite lookup_insert_eq. intros [= ? ?]. lia.
    + rewrite lookup_insert_ne by done. intros Hi.
      specialize (Hbound _ _ _ Hi). lia.
  - intros i j xi yi xj yj Hij. rewrite Hitp.
    destruct (decide (j = length chars)) as [->|Hj].
    + rewrite (lookup_insert_eq _ (length chars)). intros Hi [= ? ?]. subst xj yj.
      destruct (decide (i = length chars)) as [->|Hi'].
      * rewrite lookup_insert_eq in Hi. injection Hi as ? ?. lia.
      * rewrite lookup_insert_ne in Hi by done.
        specialize (Hbound _ _ _ Hi). lia.
    + rewrite (lookup_insert_ne _ _ j) by done. intros Hi Hjj.
      assert (j < length chars) by (apply Hkeys; eauto).
      rewrite lookup_insert_ne in Hi by lia.
      exact (Hmono _ _ _ _ _ _ Hij Hi Hjj).
Qed.

Lemma rows_inv_write_chars max_x margin chars st0 :
  (0 <= Screen.y st0)%Z -> rows_inv [] st0 ->
  rows_inv chars (write_chars get_cwidth max_x margin chars st0)
  /\ (0 <= Screen.y (write_chars get_cwidth max_x margin chars st0))%Z.
Proof.
  intros Hy Hinit. induction chars as [|[token c] chars IH] using rev_ind.
  { by split. }
  rewrite write_chars_snoc. destruct IH as [IH1 IH2]. by apply rows_inv_step.
Qed.

Lemma rows_inv_locals0 (self : Screen.t) : rows_inv [] (locals0 self).
Proof.
  split; cbn.
  - reflexivity.
  - intros i [? Hi]. by rewrite lookup_empty in Hi.
  - intros i x y Hi. by rewrite lookup_empty in Hi.
  - intros i j xi yi xj yj _ Hi. by rewrite lookup_empty in Hi.
Qed.

(** X7: the rows recorded in the index map never decrease along the
    stream, none is negative, every one is below the height the screen has
    after the call, and that height is at least 1. *)
Theorem write_data_rows (self : Screen.t) (data : tokenlist) (width : Z)
    (margin : option margin_fn) :
  let self' := (Screen.write_data get_cwidth self data width margin).1 in
  let indexes_to_pos := (Screen.write_data get_cwidth self data width margin).2 in
  (forall i j xi yi xj yj,
     i <= j -> indexes_to_pos !! i = Some (xi, yi) ->
     indexes_to_pos !! j = Some (xj, yj) -> (yi <= yj)%Z)
  /\ (forall i x y, indexes_to_pos !! i = Some (x, y) ->
        (0 <= y < Screen.current_height self')%Z)
  /\ (1 <= Screen.current_height self')%Z.
Proof.
  intros self' indexes_to_pos. subst self' indexes_to_pos.
  destruct (write_data_unfold get_cwidth self data width margin) as (_ & _ & -> & ->).
  destruct (rows_inv_write_chars width margin (explode data) (locals0 self)
              ltac:(cbn; lia) (rows_inv_locals0 self))
    as [[_ _ Hbound Hmono] Hy].
  split; [exact Hmono|]. split; [|lia].
  intros i x y Hi. specialize (Hbound _ _ _ Hi). lia.
Qed.

End ScreenMore.

Section ScreenEdge.
Variable get_cwidth : ustring -> Z.




Lemma write_char_sentinel default_char max_x margin token st c x2 y2 :
  Screen.indexes_to_pos (Screen.write_char get_cwidth max_x margin token st c)
    !! Screen.index st = Some (x2, y2) ->
  c <> newline ->
  (1 < Char.width (_CHAR_CACHE get_cwidth [c] token))%Z ->
  grid_get default_char
    (Screen.buffer (Screen.write_char get_cwidth max_x margin token st c)) y2 (x2 + 1)
  = Char.__init__ get_cwidth [0%N] Token.
Proof.
  destruct st as [x y index line_number rlf itp buffer s2i].
  unfold Screen.write_char. cbn [Screen.index]. intros Hpos Hnl Hw.
  rewrite !(bool_decide_eq_false_2 (c = newline)) in Hpos |- * by done.
  set (w := Char.width (_CHAR_CACHE get_cwidth [c] token)) in *.
  apply Z.ltb_lt in Hw.
  destruct (if rlf
            then let '(buffer, s2i, x) :=
                   Screen.do_line_feed get_cwidth margin y buffer s2i x (Some line_number) in
                 (buffer, s2i, x, false)
            else (buffer, s2i, x, rlf)) as [[[buffer1 s2i1] x1] rlf1].
  destruct ((max_x <? x1 + w)%Z && negb false).
  - destruct (Screen.do_line_feed _ _ _ _ _ _ _) as [[buffer2 s2i2] x3].
    cbn [Screen.indexes_to_pos Screen.buffer] in *. rewrite lookup_insert_eq in Hpos.
    injection Hpos as <- <-. rewrite Hw. apply grid_get_set_eq.
  - cbn [Screen.indexes_to_pos Screen.buffer] in *. rewrite lookup_insert_eq in Hpos.
    injection Hpos as <- <-. rewrite Hw. apply grid_get_set_eq.
Qed.

Lemma sentinel_inv_step default_char max_x margin chars st token c :
  sentinel_inv get_cwidth default_char chars st ->
  (c <> newline -> (0 <= Char.width (_CHAR_CACHE get_cwidth [c] token))%Z) ->
  sentinel_inv get_cwidth default_char (chars ++ [(token, c)])
               (Screen.write_char get_cwidth max_x margin token st c).
Proof.
  intros [Hindex Hcell] Hwidth.
  destruct (write_char_step get_cwidth default_char max_x margin token st c)
    as (x2 & y2 & Hitp & Hindex' & Hpos & Hframe & Hafter).
  pose proof (write_char_sentinel default_char max_x margin token st c x2 y2) as Hsent.
  set (st' := Screen.write_char get_cwidth max_x margin token st c) in *.
  assert (Hnew : Screen.indexes_to_pos st' !! Screen.index st = Some (x2, y2)).
  { rewrite Hitp. apply lookup_insert_eq. }
  specialize (Hsent Hnew).
  assert (Hbehind : forall yy xx, behind st yy xx -> behind st' yy xx).
  { intros yy xx Hb. unfold behind in *.
    destruct (bool_decide_reflect (c = newline)) as [Hnl|Hnl].
    - destruct Hafter as [Hy' _]. left.
      destruct Hpos as [[-> _]|[_ ?]]; [|done].
      destruct Hb as [?|[-> _]]; lia.
    - destruct Hafter as (Hx' & Hy' & Hrlf' & _). specialize (Hwidth Hnl).
      destruct Hb as [Hlt|(-> & Hxx & Hrlf)].
      + left. destruct Hpos as [[-> _]|[-> _]]; lia.
      + destruct Hpos as [[-> Hx2]|[-> _]]; [|left; lia].
        right. rewrite (Hx2 Hrlf) in Hx'. repeat split; [done | lia | done]. }
  split.
  - rewrite Hindex', Hindex, length_app. cbn. lia.
  - intros i token' c' xi yi Hi Hnl Hw Hpi.
    destruct (decide (i < length chars)) as [Hlt|Hge].
    + rewrite lookup_app_l in Hi by done.
      rewrite Hitp, lookup_insert_ne in Hpi by lia.
      destruct (Hcell _ _ _ _ _ Hi Hnl Hw Hpi) as [Hget Hb].
      split; [by rewrite Hframe | by apply Hbehind].
    + assert (i = length chars) as ->.
      { apply lookup_lt_Some in Hi. rewrite length_app in Hi. cbn in Hi. lia. }
      rewrite list_lookup_middle in Hi by done. injection Hi as <- <-.
      rewrite <- Hindex, Hnew in Hpi. injection Hpi as <- <-.
      rewrite bool_decide_eq_false_2 in Hafter by done.
      destruct Hafter as (Hx' & Hy' & Hrlf' & _).
      split; [by apply Hsent|]. right. repeat split; [done | lia | done].
Qed.

Lemma sentinel_inv_write_chars default_char max_x margin chars st0 :
  sentinel_inv get_cwidth default_char [] st0 ->
  (forall token c, (token, c) ∈ chars -> c <> newline ->
     (0 <= Char.width (_CHAR_CACHE get_cwidth [c] token))%Z) ->
  sentinel_inv get_cwidth default_char chars
               (write_chars get_cwidth max_x margin chars st0).
Proof.
  intros Hinit. induction chars as [|[token c] chars IH] using rev_ind; intros Hwidth.
  { exact Hinit. }
  rewrite write_chars_snoc. apply sentinel_inv_step.
  - apply IH. intros token' c' Hin. apply Hwidth. apply elem_of_app. by left.
  - apply Hwidth. apply elem_of_app. right. apply list_elem_of_here.
Qed.



(** X9: when no character of the stream has a negative width, the column
    after every character wider than one column holds the placeholder
    [Char(chr(0))] at the end of the call, and the glyph of that placeholder
    is the caret sequence [^@], since the display table applies to it as
    well. *)
Theorem write_data_wide_sentinel (self : Screen.t) (data : tokenlist) (width : Z)
    (margin : option margin_fn) :
  (forall token c, (token, c) ∈ explode data -> c <> newline ->
     (0 <= Char.width (_CHAR_CACHE get_cwidth [c] token))%Z) ->
  let self' := (Screen.write_data get_cwidth self data width margin).1 in
  let indexes_to_pos := (Screen.write_data get_cwidth self data width margin).2 in
  forall i token c x y,
    explode data !! i = Some (token, c) -> c <> newline ->
    (1 < Char.width (_CHAR_CACHE get_cwidth [c] token))%Z ->
    indexes_to_pos !! i = Some (x, y) ->
    grid_get (Screen.default_char self') (Screen._buffer self') y (x + 1)
    = Char.__init__ get_cwidth [0%N] Token
    /\ Char.char (grid_get (Screen.default_char self') (Screen._buffer self') y (x + 1))
       = u "^@".
Proof.
  intros Hwidth self' indexes_to_pos. subst self' indexes_to_pos.
  destruct (write_data_unfold get_cwidth self data width margin) as (-> & -> & _ & ->).
  assert (Hinit : sentinel_inv get_cwidth (Screen.default_char self) [] (locals0 self)).
  { split; [reflexivity | by intros i ? ? ? ? [=]]. }
  destruct (sentinel_inv_write_chars (Screen.default_char self) width margin
              (explode data) (locals0 self) Hinit Hwidth) as [_ Hcell].
  intros i token c x y Hi Hnl Hw Hp.
  destruct (Hcell _ _ _ _ _ Hi Hnl Hw Hp) as [-> _]. by split.
Qed.

End ScreenEdge.

Section ScreenLines.
Variable get_cwidth : ustring -> Z.

Lemma grid_lookup_of_get (buffer : grid) (y x : Z) (c : Char.t) :
  (forall default_char, grid_get default_char buffer y x = c) ->
  grid_lookup buffer y x = Some c.
Proof.
  intros Hget. pose proof (Hget c) as H1.
  pose proof (Hget (Char.mk (Char.char c) (""%string :: Char.token c) (Char.width c))) as H2.
  rewrite grid_get_lookup in H1, H2.
  destruct (grid_lookup buffer y x) as [c'|]; cbn [default from_option] in *;
    [by f_equal|].
  apply (f_equal (fun c => length (Char.token c))) in H2. cbn in H2. lia.
Qed.

(** X10: writing a stream whose characters are at least one column wide and
    then replacing all tokens leaves, at the position recorded for every
    offset that is not a newline, the glyph and width of that character under
    the new token. *)
Theorem write_data_replace_all_tokens (self : Screen.t) (data : tokenlist) (width : Z)
    (margin : option margin_fn) (token' : TokenType) :
  (forall token c, (token, c) ∈ explode data -> c <> newline ->
     (1 <= Char.width (_CHAR_CACHE get_cwidth [c] token))%Z) ->
  let self' := Screen.replace_all_tokens get_cwidth
                 (Screen.write_data get_cwidth self data width margin).1 token' in
  let indexes_to_pos := (Screen.write_data get_cwidth self data width margin).2 in
  forall i token c x y,
    explode data !! i = Some (token, c) -> c <> newline ->
    indexes_to_pos !! i = Some (x, y) ->
    grid_get (Screen.default_char self') (Screen._buffer self') y x
    = {| Char.char := Char.display [c]; Char.token := token';
         Char.width := get_cwidth (Char.display [c]) |}.
Proof.
  intros Hwidth self' indexes_to_pos i token c x y Hi Hnl Hp.
  subst self' indexes_to_pos.
  rewrite grid_get_lookup, replace_all_tokens_lookup.
  destruct (write_data_unfold get_cwidth self data width margin) as (Hb & _ & _ & Hitp).
  rewrite Hitp in Hp. rewrite Hb.
  rewrite (grid_lookup_of_get _ y x (_CHAR_CACHE get_cwidth [c] token)).
  - cbn. unfold _CHAR_CACHE, Char.__init__. cbn [Char.char].
    by rewrite display_idempotent.
  - intros default_char.
    destruct (index_map_inv_write_chars get_cwidth default_char
                width margin (explode data) (locals0 self)
                (index_map_inv_init _ _ _ _ _ _ _ _))
      as [_ _ Hcell _ _].
    by destruct (Hcell Hwidth _ _ _ _ _ Hi Hnl Hp).
Qed.

Lemma write_char_no_margin (max_x : Z) token st c :
  Screen.write_char get_cwidth max_x None token st c =
  let char_obj := _CHAR_CACHE get_cwidth [c] token in
  let w := Char.width char_obj in
  let s2i := if Screen.requires_line_feed st
             then <[Screen.y st := Screen.line_number st]> (Screen.s2i st)
             else Screen.s2i st in
  let wrap := (max_x <? Screen.x st + w)%Z && negb (bool_decide (c = newline)) in
  let x2 := if wrap then 0%Z else Screen.x st in
  let y2 := if wrap then (Screen.y st + 1)%Z else Screen.y st in
  let indexes_to_pos := <[Screen.index st := (x2, y2)]> (Screen.indexes_to_pos st) in
  if bool_decide (c = newline)
  then Screen.mkLocals 0%Z (y2 + 1)%Z (Screen.index st + 1) (Screen.line_number st + 1)
                       true indexes_to_pos (Screen.buffer st) s2i
  else Screen.mkLocals (x2 + w)%Z y2 (Screen.index st + 1) (Screen.line_number st)
                       false indexes_to_pos
                       (if (1 <? w)%Z
                        then grid_set (grid_set (Screen.buffer st) y2 x2 char_obj) y2 (x2 + 1)
                                      (Char.__init__ get_cwidth [0%N] Token)
                        else grid_set (Screen.buffer st) y2 x2 char_obj)
                       s2i.
Proof.
  destruct st as [x y index line_number rlf itp buffer s2i].
  unfold Screen.write_char. cbn [Screen.x Screen.y Screen.index Screen.line_number
    Screen.requires_line_feed Screen.indexes_to_pos Screen.buffer Screen.s2i].
  destruct rlf; rewrite ?do_line_feed_no_margin;
    destruct ((max_x <? x + _)%Z && negb (bool_decide (c = newline)));
    rewrite ?do_line_feed_no_margin; reflexivity.
Qed.

Lemma newlines_before_app chars a i :
  i <= length chars -> newlines_before (chars ++ [a]) i = newlines_before chars i.
Proof. intros Hi. unfold newlines_before. by rewrite take_app_le. Qed.

Lemma newlines_before_snoc chars token c :
  newlines_before (chars ++ [(token, c)]) (length (chars ++ [(token, c)]))
  = newlines_before chars (length chars) + (if bool_decide (c = newline) then 1 else 0).
Proof.
  unfold newlines_before. rewrite !firstn_all, filter_app, length_app.
  f_equal. rewrite filter_cons, filter_nil. cbn [snd].
  destruct (decide (c = newline)) as [Hc|Hc].
  - by rewrite bool_decide_eq_true_2.
  - by rewrite bool_decide_eq_false_2.
Qed.

Lemma line_start_app chars a i :
  i <= length chars -> line_start (chars ++ [a]) i <-> line_start chars i.
Proof.
  intros Hi. destruct i as [|j]; [done|]. cbn. by rewrite lookup_app_l by lia.
Qed.

Lemma line_start_snoc chars token c :
  line_start (chars ++ [(token, c)]) (length (chars ++ [(token, c)])) <-> c = newline.
Proof.
  rewrite length_app. cbn [length]. rewrite Nat.add_1_r. cbn.
  rewrite list_lookup_middle by done. split.
  - by intros [? [= _ ->]].
  - intros ->. eauto.
Qed.

Lemma lines_inv_step (W : Z) s2i0 chars st token c :
  lines_inv s2i0 chars st ->
  (c <> newline -> (Char.width (_CHAR_CACHE get_cwidth [c] token) <= W)%Z) ->
  lines_inv s2i0 (chars ++ [(token, c)])
            (Screen.write_char get_cwidth W None token st c).
Proof.
  intros [Hindex Hnumber Hfeed Hx Hkeys Hrows Hstart Hother] Hwidth.
  rewrite write_char_no_margin. cbn zeta.
  set (w := Char.width (_CHAR_CACHE get_cwidth [c] token)) in *.
  set (wrap := (W <? Screen.x st + w)%Z && negb (bool_decide (c = newline))).
  set (x2 := if wrap then 0%Z else Screen.x st).
  set (y2 := if wrap then (Screen.y st + 1)%Z else Screen.y st).
  set (s1 := if Screen.requires_line_feed st
             then <[Screen.y st := Screen.line_number st]> (Screen.s2i st)
             else Screen.s2i st).
  assert (Hy2 : (Screen.y st <= y2)%Z) by (unfold y2; destruct wrap; lia).
  assert (Hnowrap : Screen.requires_line_feed st = true -> y2 = Screen.y st).
  { intros Hrlf. unfold y2, wrap. rewrite (Hx Hrlf).
    destruct (bool_decide_reflect (c = newline)) as [Hc|Hc].
    - by rewrite andb_false_r.
    - specialize (Hwidth Hc). destruct (Z.ltb_spec W (0 + w)); [lia|done]. }
  assert (Hs1_old : forall i x y,
            Screen.indexes_to_pos st !! i = Some (x, y) -> s1 !! y = Screen.s2i st !! y).
  { intros i x y Hi. unfold s1. destruct (Screen.requires_line_feed st) eqn:Hrlf; [|done].
    destruct (Hrows _ _ _ Hi) as [_ Hlt]. specialize (Hlt eq_refl).
    rewrite lookup_insert_ne; [done | lia]. }
  assert (Hcommon :
    Screen.index st + 1 = length (chars ++ [(token, c)])
    /\ (forall i, is_Some (<[Screen.index st := (x2, y2)]> (Screen.indexes_to_pos st) !! i) ->
                  i < length (chars ++ [(token, c)]))
    /\ (forall i x y, line_start (chars ++ [(token, c)]) i ->
          <[Screen.index st := (x2, y2)]> (Screen.indexes_to_pos st) !! i = Some (x, y) ->
          s1 !! y = Some (newlines_before (chars ++ [(token, c)]) i))
    /\ (forall r,
          (forall i x, line_start (chars ++ [(token, c)]) i ->
             <[Screen.index st := (x2, y2)]> (Screen.indexes_to_pos st) !! i = Some (x, r) ->
             False) ->
          s1 !! r = s2i0 !! r)).
  { rewrite length_app, Hindex. cbn [length]. split; [lia|]. split; [|split].
    - intros i. destruct (decide (i = length chars)) as [->|Hne]; [lia|].
      rewrite lookup_insert_ne by done. intros Hi. specialize (Hkeys _ Hi). lia.
    - intros i x y Hls Hi.
      destruct (decide (i = length chars)) as [->|Hne].
      + rewrite lookup_insert_eq in Hi. injection Hi as <- <-.
        rewrite line_start_app in Hls by lia. apply Hfeed in Hls.
        rewrite newlines_before_app by lia.
        rewrite (Hnowrap Hls). unfold s1. rewrite Hls, lookup_insert_eq.
        by rewrite Hnumber.
      + rewrite lookup_insert_ne in Hi by done.
        assert (i < length chars) by (apply Hkeys; eauto).
        rewrite line_start_app in Hls by lia.
        rewrite newlines_before_app by lia.
        rewrite (Hs1_old _ _ _ Hi). by eapply Hstart.
    - intros r Hr. unfold s1.
      assert (Hr' : forall i x, line_start chars i ->
                Screen.indexes_to_pos st !! i = Some (x, r) -> False).
      { intros i x Hls Hi.
        assert (i < length chars) by (apply Hkeys; eauto).
        apply (Hr i x); [by apply line_start_app; [lia|] |].
        by rewrite lookup_insert_ne by lia. }
      destruct (Screen.requires_line_feed st) eqn:Hrlf; [|by apply Hother].
      rewrite lookup_insert_ne; [by apply Hother|].
      intros <-. apply (Hr (length chars) x2).
      + apply line_start_app; [lia|]. by apply Hfeed.
      + rewrite lookup_insert_eq. by rewrite (Hnowrap eq_refl). }
  destruct Hcommon as (Hidx & Hkeys' & Hstart' & Hother').
  assert (Hrows' : forall i x y,
            <[Screen.index st := (x2, y2)]> (Screen.indexes_to_pos st) !! i = Some (x, y) ->
            (y <= y2)%Z).
  { intros i x y. rewrite Hindex.
    destruct (decide (i = length chars)) as [->|Hne].
    - rewrite lookup_insert_eq. intros [= _ <-]. lia.
    - rewrite lookup_insert_ne by done. intros Hi.
      destruct (Hrows _ _ _ Hi). lia. }
  destruct (bool_decide_reflect (c = newline)) as [Hc|Hc].
  - split; cbn [Screen.x Screen.y Screen.index Screen.line_number
      Screen.requires_line_feed Screen.indexes_to_pos Screen.s2i]; try done.
    + rewrite newlines_before_snoc, Hnumber, bool_decide_eq_true_2 by done. lia.
    + split; [intros _; by apply line_start_snoc | done].
    + intros i x y Hi. specialize (Hrows' _ _ _ Hi). split; [lia | intros _; lia].
  - split; cbn [Screen.x Screen.y Screen.index Screen.line_number
      Screen.requires_line_feed Screen.indexes_to_pos Screen.s2i]; try done.
    + rewrite newlines_before_snoc, Hnumber, bool_decide_eq_false_2 by done. lia.
    + split; [done | intros Hls; by apply line_start_snoc in Hls].
    + intros i x y Hi. specialize (Hrows' _ _ _ Hi). split; [lia | done].
Qed.

Lemma lines_inv_locals0 (self : Screen.t) :
  lines_inv (Screen.screen_line_to_input_line self) [] (locals0 self).
Proof.
  split; cbn; try done.
  intros i [pos Hi]. by apply lookup_empty_Some in Hi.
Qed.

Lemma lines_inv_write_chars (W : Z) s2i0 chars st0 :
  lines_inv s2i0 [] st0 ->
  (forall token c, (token, c) ∈ chars -> c <> newline ->
     (Char.width (_CHAR_CACHE get_cwidth [c] token) <= W)%Z) ->
  lines_inv s2i0 chars (write_chars get_cwidth W None chars st0).
Proof.
  intros Hinit. induction chars as [|[token c] chars IH] using rev_ind; intros Hwidth.
  { exact Hinit. }
  rewrite write_chars_snoc. apply lines_inv_step.
  - apply IH. intros token' c' Hin. apply Hwidth. apply elem_of_app. by left.
  - apply Hwidth. apply elem_of_app. right. apply list_elem_of_here.
Qed.

(** X11: without a margin function and with no character wider than the
    target width, the line mapping after the call sends the row recorded for
    the first offset of every input line to the number of that line (the
    number of newlines before it), and every other row to what it was mapped
    to before. *)
Theorem write_data_line_mapping (self : Screen.t) (data : tokenlist) (W : Z) :
  (forall token c, (token, c) ∈ explode data -> c <> newline ->
     (Char.width (_CHAR_CACHE get_cwidth [c] token) <= W)%Z) ->
  let self' := (Screen.write_data get_cwidth self data W None).1 in
  let indexes_to_pos := (Screen.write_data get_cwidth self data W None).2 in
  (forall i x y,
     line_start (explode data) i -> indexes_to_pos !! i = Some (x, y) ->
     Screen.screen_line_to_input_line self' !! y
     = Some (newlines_before (explode data) i))
  /\ (forall r,
        (forall i x, line_start (explode data) i ->
                     indexes_to_pos !! i = Some (x, r) -> False) ->
        Screen.screen_line_to_input_line self' !! r
        = Screen.screen_line_to_input_line self !! r).
Proof.
  intros Hwidth self' indexes_to_pos. subst self' indexes_to_pos.
  destruct (write_data_unfold get_cwidth self data W None) as (_ & _ & _ & ->).
  unfold Screen.write_data. cbn [fst Screen.screen_line_to_input_line].
  rewrite Z.add_0_l, write_chars_explode. fold (locals0 self).
  destruct (lines_inv_write_chars W _ (explode data) (locals0 self)
              (lines_inv_locals0 self) Hwidth)
    as [_ _ _ _ _ _ Hstart Hother].
  split; [exact Hstart | exact Hother].
Qed.

End ScreenLines.

Section ScreenRowsFrame.
Variable get_cwidth : ustring -> Z.

(** X1: the glyph of the cell of a character is its caret notation for NUL
    to US other than RS and for DEL, and the character itself otherwise; the
    width is the width of that glyph and the token is the one given. *)
Theorem Char_init_glyph (c : uchar) (token : TokenType) :
  Char.char (Char.__init__ get_cwidth [c] token)
  = (if bool_decide (((c <= 0x1f)%N \/ c = 0x7f%N) /\ c <> 0x1e%N)
     then caret c else [c])
  /\ Char.width (Char.__init__ get_cwidth [c] token)
     = get_cwidth (Char.char (Char.__init__ get_cwidth [c] token))
  /\ Char.token (Char.__init__ get_cwidth [c] token) = token.
Proof.
  split; [|by split]. unfold Char.__init__. cbn [Char.char].
  case_bool_decide as Hc.
  - destruct Hc as [Hc Hne]. by apply display_mappings_caret.
  - destruct (decide (c = 0x1e%N)) as [->|Hne]; [reflexivity|].
    apply display_mappings_other. intros c' [= <-]. lia.
Qed.

Lemma write_char_rows_frame default_char max_x margin token st c yy xx :
  (yy < Screen.y st)%Z
  \/ (Screen.y (Screen.write_char get_cwidth max_x margin token st c) < yy)%Z ->
  grid_get default_char
    (Screen.buffer (Screen.write_char get_cwidth max_x margin token st c)) yy xx
  = grid_get default_char (Screen.buffer st) yy xx.
Proof.
  destruct st as [x y index line_number rlf itp buffer s2i].
  unfold Screen.write_char. cbn [Screen.y Screen.buffer].
  set (char_obj := _CHAR_CACHE get_cwidth [c] token).
  assert (Hfeed : exists buffer1 s2i1 x1 rlf1,
            (if rlf
             then let '(buffer, s2i, x) :=
                    Screen.do_line_feed get_cwidth margin y buffer s2i x (Some line_number) in
                  (buffer, s2i, x, false)
             else (buffer, s2i, x, rlf)) = (buffer1, s2i1, x1, rlf1)
            /\ (yy <> y ->
                grid_get default_char buffer1 yy xx = grid_get default_char buffer yy xx)).
  { destruct rlf.
    - destruct (Screen.do_line_feed _ _ _ _ _ _ _) as [[buffer1 s2i1] x1] eqn:Hlf.
      exists buffer1, s2i1, x1, false. split; [reflexivity|].
      intros Hne. by eapply do_line_feed_frame.
    - exists buffer, s2i, x, false. by split. }
  destruct Hfeed as (buffer1 & s2i1 & x1 & rlf1 & -> & Hframe1).
  assert (Hset : forall b y2 x2,
            yy <> y2 ->
            grid_get default_char
              (if (1 <? Char.width char_obj)%Z
               then grid_set (grid_set b y2 x2 char_obj) y2 (x2 + 1)
                             (Char.__init__ get_cwidth [0%N] Token)
               else grid_set b y2 x2 char_obj) yy xx
            = grid_get default_char b yy xx).
  { intros b y2 x2 Hne. destruct (1 <? _)%Z; rewrite !grid_get_set_ne; try done;
      intros [= ? ?]; lia. }
  destruct ((max_x <? x1 + Char.width char_obj)%Z && negb (bool_decide (c = newline)))
    eqn:Hwrap.
  - apply andb_prop in Hwrap as [_ Hnl]. apply negb_true_iff in Hnl. rewrite Hnl.
    destruct (Screen.do_line_feed _ _ _ _ _ _ _) as [[buffer2 s2i2] x2] eqn:Hlf.
    cbn [Screen.y Screen.buffer]. intros Hyy.
    rewrite Hset by lia.
    rewrite (do_line_feed_frame _ _ _ _ _ _ _ _ _ _ _ Hlf) by lia.
    apply Hframe1. lia.
  - destruct (bool_decide (c = newline)); cbn [Screen.y Screen.buffer]; intros Hyy.
    + apply Hframe1. lia.
    + rewrite Hset by lia. apply Hframe1. lia.
Qed.

Lemma write_char_y_mono max_x margin token st c :
  (Screen.y st <= Screen.y (Screen.write_char get_cwidth max_x margin token st c))%Z.
Proof.
  destruct (write_char_step get_cwidth (Char.mk [] [] 0) max_x margin token st c)
    as (x2 & y2 & _ & _ & Hpos & _ & Hafter).
  destruct (bool_decide (c = newline)).
  - destruct Hafter as [-> _]. destruct Hpos as [[-> _]|[-> _]]; lia.
  - destruct Hafter as (_ & -> & _). destruct Hpos as [[-> _]|[-> _]]; lia.
Qed.

Lemma write_chars_cons max_x margin token c chars st :
  write_chars get_cwidth max_x margin ((token, c) :: chars) st
  = write_chars get_cwidth max_x margin chars
      (Screen.write_char get_cwidth max_x margin token st c).
Proof. reflexivity. Qed.

Lemma write_chars_y_mono max_x margin chars st :
  (Screen.y st <= Screen.y (write_chars get_cwidth max_x margin chars st))%Z.
Proof.
  revert st. induction chars as [|[token c] chars IH]; intros st; [reflexivity|].
  rewrite write_chars_cons. etrans; [apply write_char_y_mono | apply IH].
Qed.

Lemma write_chars_rows_frame default_char max_x margin chars st yy xx :
  (yy < Screen.y st)%Z
  \/ (Screen.y (write_chars get_cwidth max_x margin chars st) < yy)%Z ->
  grid_get default_char (Screen.buffer (write_chars get_cwidth max_x margin chars st)) yy xx
  = grid_get default_char (Screen.buffer st) yy xx.
Proof.
  revert st. induction chars as [|[token c] chars IH]; intros st Hyy; [reflexivity|].
  rewrite write_chars_cons in Hyy |- *.
  pose proof (write_char_y_mono max_x margin token st c) as H1.
  pose proof (write_chars_y_mono max_x margin chars
                (Screen.write_char get_cwidth max_x margin token st c)) as H2.
  rewrite IH by lia. apply write_char_rows_frame. lia.
Qed.

(** X12: [write_data] leaves every cell on a negative row and every cell on
    a row at or beyond the height it sets as it was. *)
Theorem write_data_rows_frame (self : Screen.t) (data : tokenlist) (width : Z)
    (margin : option margin_fn) (y x : Z) :
  let self' := (Screen.write_data get_cwidth self data width margin).1 in
  (y < 0)%Z \/ (Screen.current_height self' <= y)%Z ->
  grid_get (Screen.default_char self') (Screen._buffer self') y x
  = grid_get (Screen.default_char self) (Screen._buffer self) y x.
Proof.
  intros self'. subst self'.
  destruct (write_data_unfold get_cwidth self data width margin) as (-> & -> & -> & _).
  intros Hy. apply write_chars_rows_frame. cbn [locals0 Screen.y] in *. lia.
Qed.

End ScreenRowsFrame.


Lemma for_each_app {S A : Type} (body : S -> A -> option S) (l1 l2 : list A) (s : S) :
  for_each body (l1 ++ l2) s = for_each body l1 s ≫= for_each body l2.
Proof.
  revert s. induction l1 as [|a l1 IH]; intros s; [reflexivity|].
  cbn [app for_each]. destruct (body s a) as [s'|]; [apply IH | reflexivity].
Qed.

Lemma retag_out_of_range token (tokens : tokenlist) x :
  length tokens <= x -> retag token tokens x = None.
Proof. intros Hx. unfold retag. by rewrite lookup_ge_None_2. Qed.

(** A range that reaches past the end of the list raises [IndexError]. *)
Lemma for_each_retag_overflow token index len (tokens : tokenlist) :
  0 < len -> length tokens < index + len ->
  for_each (retag token) (seq index len) tokens = None.
Proof.
  intros Hlen Hover.
  destruct (decide (length tokens <= index)) as [Hle|Hlt].
  - destruct len as [|len]; [lia|]. cbn [seq for_each].
    by rewrite retag_out_of_range.
  - replace len with ((length tokens - index) + (len - (length tokens - index))) by lia.
    rewrite seq_app, for_each_app, for_each_retag_range by lia.
    cbn [mbind option_bind].
    replace (index + (length tokens - index)) with (length tokens) by lia.
    destruct (len - (length tokens - index)) as [|m] eqn:Hm; [lia|].
    cbn [seq for_each]. rewrite retag_out_of_range; [reflexivity|].
    by rewrite retag_range_length.
Qed.

Section ProcessorsMore.
Variable CommandLineInterface : Type.
Variable find_all : Document -> ustring -> list nat.
Variable selection_range : Document -> option (nat * nat).

(** X13: with a mask of one character the password processor keeps the
    number of fragments, their tokens and their lengths, replaces every
    character of the stream by the mask character, and returns the identity
    remap. *)
Theorem PasswordProcessor_run_masks (mask : uchar) (cli : CommandLineInterface)
    (buffer : Buffer) (tokens : tokenlist) :
  exists tokens',
    PasswordProcessor_run CommandLineInterface [mask] cli buffer tokens
    = Some (tokens', fun i => i)
    /\ length tokens' = length tokens
    /\ tokens'.*1 = tokens.*1
    /\ (length <$> tokens'.*2) = (length <$> tokens.*2)
    /\ explode tokens' = (fun p : TokenType * uchar => (p.1, mask)) <$> explode tokens.
Proof.
  eexists. split; [reflexivity|].
  assert (Hrep : forall n, concat (replicate n [mask]) = replicate n mask).
  { induction n as [|n IH]; [reflexivity|]. cbn. by rewrite IH. }
  repeat split.
  - by rewrite length_fmap.
  - rewrite <- list_fmap_compose. apply list_fmap_ext. by intros i [token text] _.
  - rewrite <- !list_fmap_compose. apply list_fmap_ext. intros i [token text] _.
    cbn. by rewrite Hrep, length_replicate.
  - induction tokens as [|[token text] tokens IH]; [reflexivity|].
    rewrite fmap_cons, !explode_cons, fmap_app, IH. f_equal.
    rewrite Hrep. clear IH. induction text as [|c text IHt]; [reflexivity|].
    cbn. by rewrite IHt.
Qed.

(** X14: the selection processor hands the stream back when nothing is
    selected; for a selection from [from_] to [to] that ends inside the
    stream (or is empty) it retags exactly the offsets from [from_] up to but
    not including [to], keeping texts and length; and for a non-empty
    selection that reaches past the end of the stream it raises
    [IndexError]. *)
Theorem HighlightSelectionProcessor_run_range (cli : CommandLineInterface)
    (buffer : Buffer) (tokens : tokenlist) :
  (selection_range (document buffer) = None ->
   HighlightSelectionProcessor_run _ selection_range cli buffer tokens
   = Some (tokens, fun i => i))
  /\ (forall from_ to,
        selection_range (document buffer) = Some (from_, to) ->
        to <= length tokens \/ to <= from_ ->
        exists tokens',
          HighlightSelectionProcessor_run _ selection_range cli buffer tokens
          = Some (tokens', fun i => i)
          /\ length tokens' = length tokens
          /\ tokens'.*2 = tokens.*2
          /\ forall x, token_at tokens' x =
                       if bool_decide (from_ <= x < to /\ x < length tokens)
                       then Some Token_SelectedText else token_at tokens x)
  /\ (forall from_ to,
        selection_range (document buffer) = Some (from_, to) ->
        from_ < to -> length tokens < to ->
        HighlightSelectionProcessor_run _ selection_range cli buffer tokens = None).
Proof.
  unfold HighlightSelectionProcessor_run. split; [|split].
  - by intros ->.
  - intros from_ to -> Hrange.
    destruct (decide (to <= from_)) as [Hempty|Hlt].
    { exists tokens. replace (to - from_) with 0 by lia.
      repeat split. intros x. rewrite bool_decide_eq_false_2 by lia. reflexivity. }
    exists (retag_range Token_SelectedText from_ (to - from_) tokens).
    rewrite for_each_retag_range by lia. split; [reflexivity|].
    split; [apply retag_range_length|]. split.
    + apply list_eq. intros x. rewrite !list_lookup_fmap, retag_range_lookup.
      destruct (tokens !! x) as [[token text]|]; [|reflexivity].
      cbn -[bool_decide]. by case_bool_decide.
    + intros x. unfold token_at. rewrite retag_range_lookup.
      destruct (tokens !! x) as [[token text]|] eqn:Hx.
      * apply lookup_lt_Some in Hx. cbn -[bool_decide].
        rewrite (bool_decide_ext (from_ <= x < to /\ x < length tokens)
                                 (from_ <= x < from_ + (to - from_))) by lia.
        by case_bool_decide.
      * apply lookup_ge_None in Hx. cbn -[bool_decide].
        case_bool_decide; [lia | reflexivity].
  - intros from_ to -> Hlt Hover.
    by rewrite for_each_retag_overflow by lia.
Qed.

Lemma for_each_occurrence_empty_text cursor (occurrences : list nat) (tokens : tokenlist) :
  for_each (fun tokens index =>
              for_each (retag (search_token cursor index)) (seq index 0) tokens)
           occurrences tokens = Some tokens.
Proof. induction occurrences as [|index occurrences IH]; [reflexivity | exact IH]. Qed.

Lemma for_each_occurrence_overflow cursor len (occurrences : list nat) :
  0 < len ->
  forall tokens : tokenlist,
    Exists (fun index => length tokens < index + len) occurrences ->
    for_each (fun tokens index =>
                for_each (retag (search_token cursor index)) (seq index len) tokens)
             occurrences tokens = None.
Proof.
  intros Hlen. induction occurrences as [|index occurrences IH]; intros tokens Hex.
  { by apply Exists_nil in Hex. }
  cbn [for_each].
  destruct (decide (length tokens < index + len)) as [Hover|Hin].
  - by rewrite for_each_retag_overflow.
  - rewrite for_each_retag_range by lia. cbn [mbind option_bind].
    apply IH. rewrite retag_range_length.
    apply Exists_cons in Hex as [?|?]; [lia | done].
Qed.

(** X15: with an active search state, an empty search text or no match
    leaves the stream as it is; a match of a non-empty text that reaches past
    the end of the stream makes the processor raise [IndexError]. *)
Theorem HighlightSearchProcessor_run_edges (cli : CommandLineInterface)
    (buffer : Buffer) (tokens : tokenlist) (state : ISearchState) :
  isearch_state buffer = Some state ->
  (isearch_text state = [] \/ find_all (document buffer) (isearch_text state) = [] ->
   HighlightSearchProcessor_run _ find_all cli buffer tokens = Some (tokens, fun i => i))
  /\ (isearch_text state <> [] ->
      Exists (fun index => length tokens < index + length (isearch_text state))
             (find_all (document buffer) (isearch_text state)) ->
      HighlightSearchProcessor_run _ find_all cli buffer tokens = None).
Proof.
  intros Hstate. unfold HighlightSearchProcessor_run. rewrite Hstate. split.
  - intros [Htext|Hocc].
    + rewrite Htext. cbn [length].
      pose proof (for_each_occurrence_empty_text (cursor_position buffer)
                    (find_all (document buffer) []) tokens) as Hrun.
      unfold search_token in Hrun. by rewrite Hrun.
    + by rewrite Hocc.
  - intros Htext Hex.
    pose proof (for_each_occurrence_overflow (cursor_position buffer)
                  (length (isearch_text state))
                  (find_all (document buffer) (isearch_text state))
                  ltac:(destruct (isearch_text state); [done | cbn; lia])
                  tokens Hex) as Hrun.
    unfold search_token in Hrun. by rewrite Hrun.
Qed.

(** X16: two buffers with the same invalidation hash, on documents with
    the same matches, give the same result on the same stream: the hash
    carries the cursor offset whenever the cursor offset can change the
    output. *)
Theorem HighlightSearchProcessor_hash_sound (cli : CommandLineInterface)
    (buffer1 buffer2 : Buffer) (tokens : tokenlist) :
  HighlightSearchProcessor_invalidation_hash _ cli buffer1
  = HighlightSearchProcessor_invalidation_hash _ cli buffer2 ->
  (forall sub, find_all (document buffer1) sub = find_all (document buffer2) sub) ->
  HighlightSearchProcessor_run _ find_all cli buffer1 tokens
  = HighlightSearchProcessor_run _ find_all cli buffer2 tokens.
Proof.
  unfold HighlightSearchProcessor_invalidation_hash, HighlightSearchProcessor_run.
  intros Hhash Hfind. injection Hhash as Hstate _ Hcursor.
  rewrite <- Hstate in *. destruct (isearch_state buffer1) as [state|]; [|reflexivity].
  rewrite <- Hfind.
  destruct (isearch_text state) as [|c text] eqn:Htext.
  - cbn [length].
    pose proof (for_each_occurrence_empty_text (cursor_position buffer1)
                  (find_all (document buffer1) []) tokens) as H1.
    pose proof (for_each_occurrence_empty_text (cursor_position buffer2)
                  (find_all (document buffer1) []) tokens) as H2.
    unfold search_token in H1, H2. by rewrite H1, H2.
  - injection Hcursor as ->. reflexivity.
Qed.

(** X17: a conditional processor around a conditional processor runs as one
    conditional processor with both filters, and when either filter is off
    the stream comes back as it is with the identity remap, whatever the
    wrapped processor would do. *)
Theorem ConditionalProcessor_run_nested (processor : Processor CommandLineInterface)
    (filter1 filter2 : CommandLineInterface -> bool)
    (cli : CommandLineInterface) (buffer : Buffer) (tokens : tokenlist) :
  run _ (ConditionalProcessor _ (ConditionalProcessor _ processor filter1) filter2)
      cli buffer tokens
  = run _ (ConditionalProcessor _ processor (fun cli => filter2 cli && filter1 cli))
        cli buffer tokens
  /\ (filter2 cli && filter1 cli = false ->
      run _ (ConditionalProcessor _ (ConditionalProcessor _ processor filter1) filter2)
          cli buffer tokens = Some (tokens, fun i => i)).
Proof.
  cbn. unfold ConditionalProcessor_run. cbn. unfold ConditionalProcessor_run.
  destruct (filter2 cli), (filter1 cli); cbn; split; try done.
Qed.

(** X18: inserting before the input and then after it gives the same stream
    as inserting after it and then before it, the generated tokens followed
    by the input followed by the other generated tokens, and the two orders
    compose to the same remap. *)
Theorem BeforeInput_AfterInput_commute
    (get_before get_after : CommandLineInterface -> Buffer -> tokenlist)
    (cli : CommandLineInterface) (buffer : Buffer) (tokens : tokenlist) :
  exists tokens1 f1 tokens2 f2 tokens3 f3 tokens4 f4,
    run _ (BeforeInput _ get_before) cli buffer tokens = Some (tokens1, f1)
    /\ run _ (AfterInput _ get_after) cli buffer tokens1 = Some (tokens2, f2)
    /\ run _ (AfterInput _ get_after) cli buffer tokens = Some (tokens3, f3)
    /\ run _ (BeforeInput _ get_before) cli buffer tokens3 = Some (tokens4, f4)
    /\ tokens2 = get_before cli buffer ++ tokens ++ get_after cli buffer
    /\ tokens4 = tokens2
    /\ forall i, f2 (f1 i) = f4 (f3 i).
Proof.
  do 8 eexists.
  split; [reflexivity|]. split; [reflexivity|].
  split; [reflexivity|]. split; [reflexivity|].
  split; [by rewrite <- app_assoc|]. split; [by rewrite <- app_assoc|].
  reflexivity.
Qed.

End ProcessorsMore.

Lemma Forall_removelast {A : Type} (P : A -> Prop) (l : list A) :
  Forall P l -> Forall P (removelast l).
Proof.
  induction 1 as [|a l Ha Hl IH]; [constructor|].
  cbn. destruct l; [constructor | by constructor].
Qed.

Lemma brackets_inv_insert tokens0 stack stack' (tokens : tokenlist) i token text :
  brackets_inv tokens0 stack tokens ->
  Forall (bracket_text tokens0) stack' ->
  bracket_text tokens0 i ->
  tokens !! i = Some (token, text) ->
  brackets_inv tokens0 stack' (<[i := (Token_Error, text)]> tokens).
Proof.
  intros [Hlen Htexts Htokens _] Hstack Hi Hlook.
  assert (Hlt : i < length tokens) by (by eapply lookup_lt_Some).
  split; [by rewrite length_insert| | |exact Hstack].
  - rewrite list_fmap_insert. cbn [snd]. rewrite <- Htexts.
    apply list_insert_id. by rewrite list_lookup_fmap, Hlook.
  - intros j. destruct (decide (i = j)) as [<-|Hne].
    + right. split; [exact Hi|]. unfold token_at.
      by rewrite list_lookup_insert_eq.
    + unfold token_at. rewrite list_lookup_insert_ne by done. apply Htokens.
Qed.

Lemma brackets_inv_lookup tokens0 stack (tokens : tokenlist) i :
  brackets_inv tokens0 stack tokens ->
  forall token0 text, tokens0 !! i = Some (token0, text) ->
  exists token, tokens !! i = Some (token, text).
Proof.
  intros [Hlen Htexts _ _] token0 text Hi.
  assert (Ht : tokens.*2 !! i = Some text)
    by (by rewrite Htexts, list_lookup_fmap, Hi).
  rewrite list_lookup_fmap in Ht.
  destruct (tokens !! i) as [[token text']|]; [|discriminate].
  injection Ht as ->. eauto.
Qed.

Lemma brackets_step_inv tokens0 stack (tokens : tokenlist) index :
  brackets_inv tokens0 stack tokens ->
  index < length tokens0 ->
  exists stack' tokens',
    brackets_step (stack, tokens) index = Some (stack', tokens')
    /\ brackets_inv tokens0 stack' tokens'.
Proof.
  intros Hinv Hindex. pose proof Hinv as [Hlen Htexts Htokens Hstack].
  apply lookup_lt_is_Some in Hindex as [[token0 text] Hindex].
  destruct (brackets_inv_lookup _ _ _ _ Hinv _ _ Hindex) as [token Hlook].
  unfold brackets_step. rewrite Hlook. cbn [mbind option_bind].
  assert (Htop : exists top, match last stack with
                             | Some i => snd <$> tokens !! i
                             | None => Some (u "")
                             end = Some top).
  { destruct (last stack) as [i|] eqn:Hlast; [|eauto].
    apply last_Some_elem_of in Hlast.
    rewrite Forall_forall in Hstack. destruct (Hstack _ Hlast) as (t0 & x0 & Hi & _).
    destruct (brackets_inv_lookup _ _ _ _ Hinv _ _ Hi) as [t Hi']. rewrite Hi'. eauto. }
  destruct Htop as [top ->]. cbn [mbind option_bind].
  destruct (str_in text (u "({[]})")) eqn:Hbr; [|eauto].
  assert (Hbt : bracket_text tokens0 index) by (exists token0, text; eauto).
  destruct (str_in text (u "({[")).
  { eexists _, _. split; [reflexivity|]. split; try done.
    apply Forall_app. split; [done | by constructor]. }
  destruct (_ || _).
  { eexists _, _. split; [reflexivity|]. split; try done.
    by apply Forall_removelast. }
  eexists _, _. split; [reflexivity|]. unfold error_token.
  by eapply brackets_inv_insert.
Qed.

Lemma brackets_scan_inv tokens0 (indexes : list nat) :
  Forall (fun index => index < length tokens0) indexes ->
  forall stack tokens,
    brackets_inv tokens0 stack tokens ->
    exists stack' tokens',
      for_each brackets_step indexes (stack, tokens) = Some (stack', tokens')
      /\ brackets_inv tokens0 stack' tokens'.
Proof.
  induction 1 as [|index indexes Hindex _ IH]; intros stack tokens Hinv.
  { exists stack, tokens. by split. }
  cbn [for_each].
  destruct (brackets_step_inv _ _ _ _ Hinv Hindex) as (stack1 & tokens1 & -> & Hinv1).
  cbn [mbind option_bind]. by apply IH.
Qed.

Lemma brackets_unclosed_inv tokens0 (stack : list nat) :
  Forall (bracket_text tokens0) stack ->
  forall stack0 tokens,
    brackets_inv tokens0 stack0 tokens ->
    exists tokens',
      for_each (retag Token_Error) stack tokens = Some tokens'
      /\ brackets_inv tokens0 [] tokens'.
Proof.
  induction 1 as [|i stack Hi _ IH]; intros stack0 tokens Hinv.
  { exists tokens. split; [reflexivity|]. destruct Hinv. by split. }
  cbn [for_each]. pose proof Hi as (token0 & text & Hlook0 & _).
  destruct (brackets_inv_lookup _ _ _ _ Hinv _ _ Hlook0) as [token Hlook].
  assert (Hretag : retag Token_Error tokens i
                   = Some (<[i := (Token_Error, text)]> tokens)).
  { unfold retag. by rewrite Hlook. }
  rewrite Hretag. cbn [mbind option_bind].
  apply (IH []). by eapply brackets_inv_insert.
Qed.

Section BracketsMore.
Variable CommandLineInterface : Type.

(** X19: on every stream, whatever the fragments are, the bracket-mismatch
    processor returns without raising, keeps the length and every text, and
    changes a token only to the error token and only on a fragment that
    passes its test [text in '({[]})']. *)
Theorem BracketsMismatchProcessor_run_total (cli : CommandLineInterface)
    (buffer : Buffer) (tokens : tokenlist) :
  exists tokens',
    BracketsMismatchProcessor_run _ cli buffer tokens = Some (tokens', fun i => i)
    /\ length tokens' = length tokens
    /\ tokens'.*2 = tokens.*2
    /\ forall i,
         tokens' !! i = tokens !! i
         \/ (token_at tokens' i = Some Token_Error
             /\ exists token text,
                  tokens !! i = Some (token, text)
                  /\ str_in text (u "({[]})") = true).
Proof.
  unfold BracketsMismatchProcessor_run.
  assert (Hinit : brackets_inv tokens [] tokens) by (split; auto).
  destruct (brackets_scan_inv tokens (seq 0 (length tokens))
              ltac:(apply Forall_forall; intros i Hi; apply list_elem_of_In, in_seq in Hi; lia)
              [] tokens Hinit)
    as (stack & tokens1 & -> & Hinv1).
  cbn [mbind option_bind].
  destruct (brackets_unclosed_inv tokens stack (brackets_stack _ _ _ Hinv1) stack tokens1 Hinv1)
    as (tokens2 & -> & [Hlen Htexts Htokens _]).
  exists tokens2. split; [reflexivity|]. split; [exact Hlen|]. split; [exact Htexts|].
  intros i. destruct (Htokens i) as [?|[? ?]]; [by left | by right].
Qed.

Lemma explode_texts (tokens : tokenlist) : (explode tokens).*2 = concat tokens.*2.
Proof.
  induction tokens as [|[token text] tokens IH]; [reflexivity|].
  rewrite explode_cons, fmap_app, IH. cbn. f_equal.
  rewrite <- list_fmap_compose. clear. induction text as [|c text IHt]; [reflexivity|].
  cbn. by rewrite IHt.
Qed.

(** X20: on a stream with one character per fragment, running the
    bracket-mismatch processor on its own output changes nothing. *)
Theorem BracketsMismatchProcessor_run_idempotent (cli : CommandLineInterface)
    (buffer : Buffer) (tokens : tokenlist) :
  one_char_fragments tokens ->
  exists tokens',
    BracketsMismatchProcessor_run _ cli buffer tokens = Some (tokens', fun i => i)
    /\ BracketsMismatchProcessor_run _ cli buffer tokens' = Some (tokens', fun i => i).
Proof.
  intros Hone. exists (spec_brackets_mismatch run_brackets tokens).
  split; [by apply BracketsMismatchProcessor_run_refines|].
  unfold spec_brackets_mismatch.
  destruct (spec_scan run_brackets (explode tokens).*2 (explode tokens).*2 0 [] [])
    as [stack errors] eqn:Hscan.
  assert (Htexts : (mark_errors (errors ++ stack) tokens).*2 = tokens.*2)
    by apply mark_errors_texts.
  assert (Hone' : one_char_fragments (mark_errors (errors ++ stack) tokens)).
  { unfold one_char_fragments in *.
    apply (Forall_fmap snd (fun s : ustring => length s = 1)).
    rewrite Htexts. by apply (Forall_fmap snd (fun s : ustring => length s = 1)). }
  rewrite BracketsMismatchProcessor_run_refines by done.
  do 2 f_equal. unfold spec_brackets_mismatch.
  rewrite !explode_texts, Htexts, <- explode_texts, Hscan.
  apply list_eq. intros i. rewrite !mark_errors_lookup.
  destruct (tokens !! i) as [[token text]|]; [|reflexivity].
  cbn -[bool_decide]. by case_bool_decide.
Qed.

End BracketsMore.

(** ** Instances of the properties above *)

Ltac sample_widths :=
  let Hin := fresh "Hin" in
  intros ? ? Hin ?; cbn in Hin;
  repeat (apply elem_of_cons in Hin as [[= -> ->]|Hin]; [by vm_compute|]);
  by apply elem_of_nil in Hin.

Lemma write_data_no_chars_witness :
  (Screen.write_data sample_cwidth (Screen.__init__ sample_cwidth 80%Z None)
     [(Token, u ""); (Token_LineNumber, u "")] 80%Z
     (Some (fun number => [(Token_LineNumber, u "> ")]))).2 = ∅.
Proof.
  rewrite (write_data_no_chars sample_cwidth (Screen.__init__ sample_cwidth 80%Z None)
             [(Token, u ""); (Token_LineNumber, u "")] 80%Z
             (Some (fun number => [(Token_LineNumber, u "> ")])) eq_refl).
  reflexivity.
Defined.


Lemma write_data_wide_sentinel_witness :
  Char.char
    (grid_get
       (Screen.default_char
          (Screen.write_data sample_cwidth (Screen.__init__ sample_cwidth 80%Z None)
             [(Token, u "ab" ++ [0x4e2d%N])] 3%Z None).1)
       (Screen._buffer
          (Screen.write_data sample_cwidth (Screen.__init__ sample_cwidth 80%Z None)
             [(Token, u "ab" ++ [0x4e2d%N])] 3%Z None).1)
       1%Z (0 + 1)%Z)
  = u "^@".
Proof.
  apply (write_data_wide_sentinel sample_cwidth (Screen.__init__ sample_cwidth 80%Z None)
           [(Token, u "ab" ++ [0x4e2d%N])] 3%Z None ltac:(sample_widths)
           2 Token 0x4e2d%N 0%Z 1%Z
           eq_refl ltac:(discriminate) ltac:(by vm_compute) ltac:(vm_compute; reflexivity)).
Defined.

Lemma write_data_replace_all_tokens_witness :
  grid_get
    (Screen.default_char
       (Screen.replace_all_tokens sample_cwidth
          (Screen.write_data sample_cwidth (Screen.__init__ sample_cwidth 80%Z None)
             [(Token, [ord "a"; 0x07%N])] 80%Z None).1 ["Aborted"%string]))
    (Screen._buffer
       (Screen.replace_all_tokens sample_cwidth
          (Screen.write_data sample_cwidth (Screen.__init__ sample_cwidth 80%Z None)
             [(Token, [ord "a"; 0x07%N])] 80%Z None).1 ["Aborted"%string]))
    0%Z 1%Z
  = {| Char.char := Char.display [0x07%N]; Char.token := ["Aborted"%string];
       Char.width := sample_cwidth (Char.display [0x07%N]) |}.
Proof.
  apply (write_data_replace_all_tokens sample_cwidth
           (Screen.__init__ sample_cwidth 80%Z None)
           [(Token, [ord "a"; 0x07%N])] 80%Z None ["Aborted"%string]
           ltac:(sample_widths)
           1 Token 0x07%N 1%Z 0%Z
           eq_refl ltac:(discriminate) ltac:(vm_compute; reflexivity)).
Defined.

Lemma write_data_line_mapping_witness :
  Screen.screen_line_to_input_line
    (Screen.write_data sample_cwidth (Screen.__init__ sample_cwidth 80%Z None)
       [(Token, [ord "a"; newline; ord "b"])] 80%Z None).1 !! 1%Z
  = Some (newlines_before (explode [(Token, [ord "a"; newline; ord "b"])]) 2).
Proof.
  apply (proj1 (write_data_line_mapping sample_cwidth
                  (Screen.__init__ sample_cwidth 80%Z None)
                  [(Token, [ord "a"; newline; ord "b"])] 80%Z
                  ltac:(sample_widths))
               2 0%Z 1%Z
               ltac:(by exists Token) ltac:(vm_compute; reflexivity)).
Defined.

Lemma write_data_rows_frame_witness :
  grid_get
    (Screen.default_char
       (Screen.write_data sample_cwidth (Screen.__init__ sample_cwidth 80%Z None)
          [(Token, u "ab")] 1%Z None).1)
    (Screen._buffer
       (Screen.write_data sample_cwidth (Screen.__init__ sample_cwidth 80%Z None)
          [(Token, u "ab")] 1%Z None).1)
    2%Z 0%Z
  = grid_get (Screen.default_char (Screen.__init__ sample_cwidth 80%Z None))
             (Screen._buffer (Screen.__init__ sample_cwidth 80%Z None)) 2%Z 0%Z.
Proof.
  apply (write_data_rows_frame sample_cwidth (Screen.__init__ sample_cwidth 80%Z None)
           [(Token, u "ab")] 1%Z None 2%Z 0%Z).
  right. vm_compute. discriminate.
Defined.

Lemma HighlightSearchProcessor_run_edges_witness :
  HighlightSearchProcessor_run unit sample_find_all ()
    (mkBuffer (Some (mkISearchState (u ""))) (mkDocument (u "abc") 1))
    (spell Token (u "abc"))
  = Some (spell Token (u "abc"), fun i => i).
Proof.
  apply (proj1 (HighlightSearchProcessor_run_edges unit sample_find_all ()
                  (mkBuffer (Some (mkISearchState (u ""))) (mkDocument (u "abc") 1))
                  (spell Token (u "abc")) (mkISearchState (u "")) eq_refl)).
  left. reflexivity.
Defined.

Lemma HighlightSearchProcessor_hash_sound_witness :
  HighlightSearchProcessor_run unit sample_find_all ()
    (mkBuffer (Some (mkISearchState (u ""))) (mkDocument (u "abc") 1))
    (spell Token (u "abc"))
  = HighlightSearchProcessor_run unit sample_find_all ()
      (mkBuffer (Some (mkISearchState (u ""))) (mkDocument (u "abc") 2))
      (spell Token (u "abc")).
Proof.
  apply (HighlightSearchProcessor_hash_sound unit sample_find_all ()
           (mkBuffer (Some (mkISearchState (u ""))) (mkDocument (u "abc") 1))
           (mkBuffer (Some (mkISearchState (u ""))) (mkDocument (u "abc") 2))
           (spell Token (u "abc")) eq_refl).
  intros sub. reflexivity.
Defined.

Lemma BracketsMismatchProcessor_run_idempotent_witness :
  exists tokens',
    BracketsMismatchProcessor_run unit () (mkBuffer None (mkDocument (u "(a]") 0))
                                  (spell Token (u "(a]"))
    = Some (tokens', fun i => i)
    /\ BracketsMismatchProcessor_run unit () (mkBuffer None (mkDocument (u "(a]") 0))
                                     tokens'
       = Some (tokens', fun i => i).
Proof.
  apply (BracketsMismatchProcessor_run_idempotent unit ()
           (mkBuffer None (mkDocument (u "(a]") 0)) (spell Token (u "(a]"))).
  repeat constructor.
Defined.
